(** * node-http-proxy: the proxy pipeline core

    A shallow embedding of [src/http-proxy/common.ts],
    [src/http-proxy/index.ts] and [src/http-proxy/passes/ws-incoming.ts],
    followed by the properties the specification states about them.

    JavaScript strings are modelled as lists of code units.  Header names
    and values reach the proxy through Node's HTTP parser, which decodes
    them as Latin-1, so a code unit is an [ascii] (0..255).  Objects used
    as dictionaries (request headers, the own properties of the cookie
    rewrite table) are [gmap]s; an object whose key order is observed
    ([Object.keys] in [createHttpHeader]) is an association list in
    order of property creation. *)

From Stdlib Require Import Ascii String DecimalString DecimalN Sorted.
From stdpp Require Import base list gmap strings.

Local Open Scope char_scope.
Local Open Scope list_scope.

(** Strings of the program. *)
Abbreviation str := (list ascii).

(** A string literal as a list of code units. *)
Definition lit (s : string) : str := list_ascii_of_string s.

(* ================================================================== *)
(** ** JavaScript string primitives used by the sources *)
(* ================================================================== *)

Module Js.

Definition code (c : ascii) : N := N_of_ascii c.

Definition in_range (lo hi : N) (c : ascii) : bool :=
  ((lo <=? code c)%N && (code c <=? hi)%N)%bool.

(** [\d] *)
Definition is_digit (c : ascii) : bool := in_range 48 57 c.

(** [\s] restricted to Latin-1: TAB, LF, VT, FF, CR, SP and NBSP. *)
Definition is_space (c : ascii) : bool :=
  (in_range 9 13 c || (code c =? 32)%N || (code c =? 160)%N)%bool.

(** [String.prototype.toLowerCase] on one Latin-1 code unit: A-Z and
    the accented capitals U+00C0..U+00DE (but not the times sign). *)
Definition lower (c : ascii) : ascii :=
  if (in_range 65 90 c
      || (in_range 192 222 c && negb (code c =? 215)%N))%bool
  then ascii_of_N (code c + 32)
  else c.

Definition toLowerCase (s : str) : str := map lower s.

(** Canonicalisation of the [i] flag (no [u] flag): the upper-case
    mapping when it is a single code unit of the same range.  Inside
    Latin-1 that is a-z and U+00E0..U+00FE without the division sign;
    the sharp s, the micro sign and y-diaeresis map to themselves. *)
Definition canon (c : ascii) : ascii :=
  if (in_range 97 122 c
      || (in_range 224 254 c && negb (code c =? 247)%N))%bool
  then ascii_of_N (code c - 32)
  else c.

Definition eq_ci (a b : ascii) : bool := Ascii.eqb (canon a) (canon b).

(** [s.startsWith(p)], returning the rest of [s] on success. *)
Fixpoint strip_prefix (p s : str) : option str :=
  match p, s with
  | [], _ => Some s
  | _ :: _, [] => None
  | a :: p', b :: s' => if Ascii.eqb a b then strip_prefix p' s' else None
  end.

(** The same, comparing under the [i] flag. *)
Fixpoint strip_prefix_ci (p s : str) : option str :=
  match p, s with
  | [], _ => Some s
  | _ :: _, [] => None
  | a :: p', b :: s' => if eq_ci a b then strip_prefix_ci p' s' else None
  end.

Definition starts_with (p s : str) : bool :=
  match strip_prefix p s with Some _ => true | None => false end.

(** [s.indexOf(p) !== -1] *)
Fixpoint includes (p s : str) : bool :=
  (starts_with p s ||
   match s with
   | [] => false
   | _ :: s' => includes p s'
   end)%bool.

(** [s.split(sep)] for a one-character separator: never empty. *)
Fixpoint split (sep : ascii) (s : str) : list str :=
  match s with
  | [] => [[]]
  | c :: s' =>
      if Ascii.eqb c sep then [] :: split sep s'
      else match split sep s' with
           | seg :: segs => (c :: seg) :: segs
           | [] => [[c]]
           end
  end.

(** [l.join(sep)] *)
Fixpoint join (sep : str) (l : list str) : str :=
  match l with
  | [] => []
  | x :: l' =>
      match l' with
      | [] => x
      | _ :: _ => x ++ sep ++ join sep l'
      end
  end.

(** [s.replace(pat, rep)] with a string pattern: the first occurrence
    only.  [rep] holds no [$], so it is taken literally. *)
Fixpoint replace_first (pat rep s : str) : str :=
  match strip_prefix pat s with
  | Some rest => rep ++ rest
  | None =>
      match s with
      | [] => []
      | c :: s' => c :: replace_first pat rep s'
      end
  end.

(** [s.replace(/\/+/g, "/")]: every maximal run of slashes becomes one
    slash.  A slash that is followed by another one is dropped. *)
Fixpoint collapse_slashes (s : str) : str :=
  match s with
  | [] => []
  | c :: s' =>
      if Ascii.eqb c "/" then
        match s' with
        | c' :: _ =>
            if Ascii.eqb c' "/" then collapse_slashes s'
            else c :: collapse_slashes s'
        | [] => [c]
        end
      else c :: collapse_slashes s'
  end.

(** Truthiness of a string: [Boolean(s)]. *)
Definition truthy (s : str) : bool :=
  match s with [] => false | _ :: _ => true end.

(** Decimal rendering of a number, as string concatenation does. *)
Definition of_N (n : N) : str :=
  lit (NilEmpty.string_of_uint (N.to_uint n)).

End Js.

(* ================================================================== *)
(** ** [src/http-proxy/common.ts] *)
(* ================================================================== *)

Module Common.

(** A port as the code holds it: the string [url.parse] produced, or
    one of the numeric defaults. *)
Inductive port_value :=
| PortStr (s : str)
| PortNum (n : N).

Definition port_truthy (p : port_value) : bool :=
  match p with
  | PortStr s => Js.truthy s
  | PortNum n => negb (n =? 0)%N
  end.

Definition port_to_string (p : port_value) : str :=
  match p with
  | PortStr s => s
  | PortNum n => Js.of_N n
  end.

(** [export const isSSL = /^https|wss/]: the alternation binds looser
    than the anchor, so the pattern is "starts with https" or "holds
    wss anywhere". *)
Definition isSSL_matches (s : str) : bool :=
  (Js.starts_with (lit "https") s || Js.includes (lit "wss") s)%bool.

(** [isSSL.test(x)] converts [x] to a string first; an absent protocol
    becomes "undefined" or "null", which the pattern does not match. *)
Definition isSSL_test (protocol : option str) : bool :=
  match protocol with
  | Some s => isSSL_matches s
  | None => false
  end.

(** *** Data *)

(** A header value: a string, an array of strings, or a property that
    is present but holds [undefined]. *)
Inductive hval :=
| HStr (s : str)
| HArr (l : list str)
| HUndef.

(** The TLS material that travels with a URL record untouched. *)
Record tls_fields := {
  pfx : option str;
  key : option str;
  passphrase : option str;
  cert : option str;
  ca : option str;
  ciphers : option str;
  secureProtocol : option str;
}.

(** A resolved URL (what [url.parse] returns, or the record the caller
    supplied): [None] is [null] or [undefined]. *)
Record UrlObject := {
  protocol : option str;
  host : option str;
  hostname : option str;
  port : option port_value;
  path : option str;
  socketPath : option str;
  tls : tls_fields;
}.

(** Connection pools are opaque handles. *)
Definition Agent := nat.

Record proxyOptions := {
  target : option UrlObject;
  forward : option UrlObject;
  opt_method : option str;
  opt_headers : option (gmap str hval);
  auth : option str;
  opt_ca : option str;
  secure : option bool;
  httpAgent : option Agent;
  httpsAgent : option Agent;
  localAddress : option str;
  prependPath : option bool;
  toProxy : bool;
  ignorePath : bool;
  changeOrigin : bool;
  xfwd : bool;
}.

(** [req.connection]: the two fields [hasEncryptedConnection] reads. *)
Record Connection := {
  encrypted : bool;
  pair : bool;
}.

(** The inbound request.  Node presents request headers as strings;
    [req_socket] is a handle on [req.socket], whose [remoteAddress] is
    kept beside it. *)
Record IncomingMessage := {
  req_method : str;
  req_url : str;
  req_headers : gmap str str;
  req_connection : option Connection;
  req_socket : nat;
  remoteAddress : option str;
}.

(** [http.RequestOptions], the outbound request descriptor. *)
Record RequestOptions := {
  o_port : option port_value;
  o_host : option str;
  o_hostname : option str;
  o_socketPath : option str;
  o_tls : tls_fields;
  o_method : str;
  o_headers : gmap str hval;
  o_auth : option str;
  o_rejectUnauthorized : option bool;
  o_agent : option Agent;
  o_localAddress : option str;
  o_path : str;
}.

(** Which URL of the options a request is built for:
    [options[forward || "target"]]. *)
Inductive which := Target | Forward.

Definition selected (options : proxyOptions) (w : which) : option UrlObject :=
  match w with
  | Target => target options
  | Forward => forward options
  end.

(** *** [upgradeHeader = /(^|,)\s*upgrade\s*($|,)/i] *)

Fixpoint skip_spaces (s : str) : str :=
  match s with
  | c :: s' => if Js.is_space c then skip_spaces s' else s
  | [] => []
  end.

(** The part of the pattern after [(^|,)], matched at the head of [s].
    Neither "u" nor "," is white space, so the greedy [\s*] never has
    to give characters back. *)
Definition upgrade_token_here (s : str) : bool :=
  match Js.strip_prefix_ci (lit "upgrade") (skip_spaces s) with
  | Some rest =>
      match skip_spaces rest with
      | [] => true
      | c :: _ => Ascii.eqb c ","
      end
  | None => false
  end.

(** [(^|,)] at a position past the start can only be a comma. *)
Fixpoint upgrade_after_comma (s : str) : bool :=
  match s with
  | [] => false
  | c :: s' =>
      ((Ascii.eqb c "," && upgrade_token_here s') || upgrade_after_comma s')%bool
  end.

Definition upgradeHeader_test (s : str) : bool :=
  (upgrade_token_here s || upgrade_after_comma s)%bool.

(** *** [hasPort], [isWebsocket], [hasEncryptedConnection], [getPort] *)

(** [!!~host.indexOf(":")] *)
Definition hasPort (host : str) : bool := Js.includes [":"] host.

Definition isWebsocket (req : IncomingMessage) : bool :=
  (bool_decide (req_method req = lit "GET") &&
   match req_headers req !! lit "upgrade" with
   | Some u => Js.truthy u && bool_decide (Js.toLowerCase u = lit "websocket")
   | None => false
   end)%bool.

(** [Boolean(req.connection?.encrypted || req.connection?.pair)] *)
Definition hasEncryptedConnection (req : IncomingMessage) : bool :=
  match req_connection req with
  | Some c => (encrypted c || pair c)%bool
  | None => false
  end.

Fixpoint take_digits (s : str) : str :=
  match s with
  | c :: s' => if Js.is_digit c then c :: take_digits s' else []
  | [] => []
  end.

(** [host.match(/:(\d+)/)]: the first group of the leftmost match, that
    is, the digits after the first colon that has a digit behind it. *)
Fixpoint match_port (s : str) : option str :=
  match s with
  | [] => None
  | c :: s' =>
      if Ascii.eqb c ":" then
        match take_digits s' with
        | [] => match_port s'
        | d :: ds => Some (d :: ds)
        end
      else match_port s'
  end.

Definition getPort (req : IncomingMessage) : str :=
  let res :=
    match req_headers req !! lit "host" with
    | Some h => if Js.truthy h then match_port h else None
    | None => None
    end in
  match res with
  | Some digits => digits
  | None => if hasEncryptedConnection req then lit "443" else lit "80"
  end.

(** *** [urlJoin] *)

(** The arguments without the last one, and the last one. *)
Fixpoint unsnoc (l : list str) : option (list str * str) :=
  match l with
  | [] => None
  | x :: l' =>
      match unsnoc l' with
      | None => Some ([], x)
      | Some (init, z) => Some (x :: init, z)
      end
  end.

(** The three chained [replace] calls on the joined path. *)
Definition fix_slashes (s : str) : str :=
  Js.replace_first (lit "https:/") (lit "https://")
    (Js.replace_first (lit "http:/") (lit "http://")
       (Js.collapse_slashes s)).

(** With no argument [last] is [undefined] and [last.split] raises. *)
Definition urlJoin (arg : list str) : option str :=
  match unsnoc arg with
  | None => None
  | Some (init, last) =>
      let lastSegs := Js.split "?" last in
      (* args[lastIndex] = lastSegs.shift() *)
      let first := hd [] lastSegs in
      let lastSegs := tl lastSegs in
      let args := init ++ [first] in
      let retSegs :=
        [fix_slashes (Js.join ["/"] (filter (fun a => Is_true (Js.truthy a)) args))] in
      (* retSegs.push.apply(retSegs, lastSegs) *)
      Some (Js.join ["?"] (retSegs ++ lastSegs))
  end.

(** *** [rewriteCookieProperty] *)

(** The pattern is [new RegExp("(;\\s*" + property + "=)([^;]+)", "i")].
    [property] is an attribute name ("domain", "path"): it is matched as
    literal text, which is what the regular expression does for a name
    free of metacharacters. *)

(** [([^;]+)]: the longest run free of semicolons, and what follows. *)
Fixpoint span_value (s : str) : str * str :=
  match s with
  | [] => ([], [])
  | c :: s' =>
      if Ascii.eqb c ";" then ([], s)
      else let '(v, rest) := span_value s' in (c :: v, rest)
  end.

(** [property=)([^;]+)] at the head of [s]: the text matched up to and
    including "=", the value, and the rest. *)
Definition match_attribute (property s : str) : option (str * str * str) :=
  match Js.strip_prefix_ci property s with
  | Some (c :: s') =>
      if Ascii.eqb c "=" then
        match span_value s' with
        | ([], _) => None
        | (v, rest) => Some (take (length property) s ++ ["="], v, rest)
        end
      else None
  | _ => None
  end.

(** [\s*property=...]: the star is greedy and gives white space back
    only when the rest fails to match. *)
Fixpoint match_spaces_attribute (property s : str) : option (str * str * str) :=
  match s with
  | c :: s' =>
      if Js.is_space c then
        match match_spaces_attribute property s' with
        | Some (p, v, rest) => Some (c :: p, v, rest)
        | None => match_attribute property s
        end
      else match_attribute property s
  | [] => match_attribute property s
  end.

(** The leftmost match in [s]: what precedes it, group 1, group 2 and
    what follows it. *)
Fixpoint find_attribute (property s : str) : option (str * str * str * str) :=
  match s with
  | [] => None
  | c :: s' =>
      match (if Ascii.eqb c ";" then match_spaces_attribute property s' else None) with
      | Some (p, v, rest) => Some ([], c :: p, v, rest)
      | None =>
          match find_attribute property s' with
          | Some (pre, p, v, rest) => Some (c :: pre, p, v, rest)
          | None => None
          end
      end
  end.

(** A rewrite table is a JavaScript object: its own properties (original
    value to replacement, [None] for [null]) and the properties it
    inherits through its prototype chain, each with the text it becomes
    when concatenated to a string.  Inherited values are functions and
    objects, never [null]. *)
Record cookie_config := {
  own : gmap str (option str);
  inherited : gmap str str
}.

(** What an object literal inherits from [Object.prototype], with the
    text of each member under string concatenation. *)
Definition Object_prototype : gmap str str :=
  list_to_map
    [ (lit "constructor", lit "function Object() { [native code] }");
      (lit "hasOwnProperty", lit "function hasOwnProperty() { [native code] }");
      (lit "isPrototypeOf", lit "function isPrototypeOf() { [native code] }");
      (lit "propertyIsEnumerable",
       lit "function propertyIsEnumerable() { [native code] }");
      (lit "toLocaleString", lit "function toLocaleString() { [native code] }");
      (lit "toString", lit "function toString() { [native code] }");
      (lit "valueOf", lit "function valueOf() { [native code] }");
      (lit "__defineGetter__", lit "function __defineGetter__() { [native code] }");
      (lit "__defineSetter__", lit "function __defineSetter__() { [native code] }");
      (lit "__lookupGetter__", lit "function __lookupGetter__() { [native code] }");
      (lit "__lookupSetter__", lit "function __lookupSetter__() { [native code] }");
      (lit "__proto__", lit "[object Object]") ].

(** An object literal [{ k: v, ... }]. *)
Definition object_literal (props : gmap str (option str)) : cookie_config :=
  {| own := props; inherited := Object_prototype |}.

(** [Object.create(null)] with the given properties. *)
Definition bare_object (props : gmap str (option str)) : cookie_config :=
  {| own := props; inherited := ∅ |}.

(** [k in config] and [config[k]] together: [None] when [k in config] is
    false, the value otherwise.  Own properties shadow inherited ones. *)
Definition get_in (config : cookie_config) (k : str) : option (option str) :=
  match own config !! k with
  | Some v => Some v
  | None => Some <$> inherited config !! k
  end.

Definition value_truthy (v : option str) : bool :=
  match v with
  | Some s => Js.truthy s
  | None => false
  end.

(** The replacer callback [function (match, prefix, previousValue)]. *)
Definition replacer (config : cookie_config) (prefix previousValue : str) : str :=
  let newValue :=
    match get_in config previousValue with
    | Some v => Some v
    | None => get_in config (lit "*")
    end in
  match newValue with
  | None => prefix ++ previousValue
  | Some v => if value_truthy v then prefix ++ default [] v else []
  end.

(** A [Set-Cookie] header: one value or an array of values. *)
Inductive cookie_header :=
| Single (s : str)
| Multi (l : list str).

Definition rewrite_cookie_string (header : str) (config : cookie_config)
    (property : str) : str :=
  match find_attribute property header with
  | Some (pre, p, v, rest) => pre ++ replacer config p v ++ rest
  | None => header
  end.

Definition rewriteCookieProperty (header : cookie_header)
    (config : cookie_config) (property : str) : cookie_header :=
  match header with
  | Multi l => Multi (map (fun headerElement =>
                 rewrite_cookie_string headerElement config property) l)
  | Single s => Single (rewrite_cookie_string s config property)
  end.

(** [{}]: an options object with nothing set. *)
Definition no_options : proxyOptions :=
  {| target := None; forward := None; opt_method := None;
     opt_headers := None; auth := None; opt_ca := None; secure := None;
     httpAgent := None; httpsAgent := None; localAddress := None;
     prependPath := None; toProxy := false; ignorePath := false;
     changeOrigin := false; xfwd := false |}.

Definition no_tls : tls_fields :=
  {| pfx := None; key := None; passphrase := None; cert := None;
     ca := None; ciphers := None; secureProtocol := None |}.

(** *** [setupOutgoing] *)

Section SetupOutgoing.

(** [requiresPort(port, protocol)] of the npm package requires-port, a
    dependency outside the repository: whether [port] has to be written
    out for [protocol].  It dereferences [protocol], so the call raises
    when the protocol is absent. *)
Variable requiresPort : port_value -> str -> bool.

(** [url.parse(u).path] of Node's url module.  [url.parse] raises on
    some inputs (an authority it cannot decode, a host it rejects):
    [None] stands for the raise, [Some p] for a return whose [path] is
    [p], with [None] for [null]. *)
Variable url_parse_path : str -> option (option str).

(** [options[w].port || (isSSL.test(options[w]?.protocol) ? 443 : 80)] *)
Definition outgoing_port (t : UrlObject) : port_value :=
  match port t with
  | Some p =>
      if port_truthy p then p
      else PortNum (if isSSL_test (protocol t) then 443 else 80)
  | None => PortNum (if isSSL_test (protocol t) then 443 else 80)
  end.

Definition opt_truthy (s : option str) : bool :=
  match s with
  | Some x => Js.truthy x
  | None => false
  end.

(** The [connection] header once no agent is in use. *)
Definition force_close (headers : gmap str hval) : gmap str hval :=
  match headers !! lit "connection" with
  | Some (HStr c) =>
      if upgradeHeader_test c then headers
      else <[lit "connection" := HStr (lit "close")]> headers
  | _ => <[lit "connection" := HStr (lit "close")]> headers
  end.

(** The value given to [headers.host] under [changeOrigin]; [None] when
    the expression raises. *)
Definition origin_host (out_port : port_value) (protocol : option str)
    (out_host : option str) : option hval :=
  match protocol with
  | None => None
  | Some proto =>
      if requiresPort out_port proto then
        match out_host with
        | None => None
        | Some h =>
            if negb (hasPort h)
            then Some (HStr (h ++ [":"] ++ port_to_string out_port))
            else Some (HStr h)
        end
      else Some (match out_host with Some h => HStr h | None => HUndef end)
  end.

Definition setupOutgoing (outgoing : RequestOptions) (options : proxyOptions)
    (req : IncomingMessage) (forward : which) : option RequestOptions :=
  match selected options forward with
  | None => None
  | Some t =>
      let out_port := outgoing_port t in
      let method := if opt_truthy (opt_method options)
                    then default [] (opt_method options)
                    else req_method req in
      let headers : gmap str hval := HStr <$> req_headers req in
      let headers := match opt_headers options with
                     | Some h => h ∪ headers
                     | None => headers
                     end in
      let out_auth := if opt_truthy (auth options) then auth options
                      else o_auth outgoing in
      let out_tls :=
        if opt_truthy (opt_ca options)
        then {| pfx := pfx (tls t); key := key (tls t);
                passphrase := passphrase (tls t); cert := cert (tls t);
                ca := opt_ca options; ciphers := ciphers (tls t);
                secureProtocol := secureProtocol (tls t) |}
        else tls t in
      let proto := protocol t in
      let out_reject :=
        if isSSL_test proto
        then Some (match secure options with None => true | Some b => b end)
        else o_rejectUnauthorized outgoing in
      let out_agent :=
        if bool_decide (proto = Some (lit "http:"))
        then httpAgent options else httpsAgent options in
      let headers := match out_agent with
                     | Some _ => headers
                     | None => force_close headers
                     end in
      let targetPath :=
        if bool_decide (prependPath options = Some false) then []
        else match path t with
             | Some p => p
             | None => []
             end in
      (* url.parse(req.url) is evaluated only when toProxy is off, and
         before ignorePath is looked at *)
      match (if negb (toProxy options)
             then default [] <$> url_parse_path (req_url req)
             else Some (req_url req)) with
      | None => None
      | Some outgoingPath =>
          let outgoingPath :=
            if negb (ignorePath options) then outgoingPath else [] in
          match urlJoin [targetPath; outgoingPath] with
          | None => None
          | Some out_path =>
              let finish (headers : gmap str hval) :=
                {| o_port := Some out_port;
                   o_host := host t;
                   o_hostname := hostname t;
                   o_socketPath := socketPath t;
                   o_tls := out_tls;
                   o_method := method;
                   o_headers := headers;
                   o_auth := out_auth;
                   o_rejectUnauthorized := out_reject;
                   o_agent := out_agent;
                   o_localAddress := localAddress options;
                   o_path := out_path |} in
              if changeOrigin options then
                match origin_host out_port proto (host t) with
                | None => None
                | Some v => Some (finish (<[lit "host" := v]> headers))
                end
              else Some (finish headers)
          end
      end
  end.

End SetupOutgoing.

End Common.

(* ================================================================== *)
(** ** [src/http-proxy/passes/ws-incoming.ts] *)
(* ================================================================== *)

Module WsIncoming.

Import Common.

Definition CRLF : str := ["013"; "010"].

(** A value spliced into a string with [+]. *)
Definition hval_to_string (v : hval) : str :=
  match v with
  | HStr s => s
  | HArr l => Js.join [","] l
  | HUndef => lit "undefined"
  end.

(** [req.socket.remoteAddress] under string concatenation. *)
Definition address_to_string (a : option str) : str :=
  match a with
  | Some s => s
  | None => lit "undefined"
  end.

(** *** The [xHeaders] pass *)

(** One round of the [forEach]: append [value] to [x-forwarded-<header>],
    after a comma when the header already holds something. *)
Definition forward_header (headers : gmap str str) (header value : str)
    : gmap str str :=
  let name := lit "x-forwarded-" ++ header in
  let old := headers !! name in
  <[name :=
      (match old with Some o => if Js.truthy o then o else [] | None => [] end)
      ++ (match old with Some o => if Js.truthy o then [","] else [] | None => [] end)
      ++ value]> headers.

Definition xHeaders (req : IncomingMessage) (options : proxyOptions)
    : IncomingMessage :=
  if negb (xfwd options) then req
  else
    let values :=
      [ (lit "for", address_to_string (remoteAddress req));
        (lit "port", getPort req);
        (lit "proto", if hasEncryptedConnection req then lit "wss" else lit "ws") ] in
    {| req_method := req_method req;
       req_url := req_url req;
       req_headers :=
         fold_left (fun headers '(header, value) =>
                      forward_header headers header value)
                   values (req_headers req);
       req_connection := req_connection req;
       req_socket := req_socket req;
       remoteAddress := remoteAddress req |}.

(** *** [Object.keys] *)

(** A header object is given by its properties in the order they were
    created.  Node creates the properties of [upstreamRes.headers] as the
    header lines of the upstream arrive, one property per lower-cased
    name, so that is the order in which the upstream presented them. *)

(** A property name is an array index when it is the decimal text of an
    integer below [2^32 - 1]; the result is that integer. *)
Definition array_index (k : str) : option N :=
  match NilEmpty.uint_of_string (string_of_list_ascii k) with
  | Some d =>
      let n := N.of_uint d in
      if ((n <? 4294967295)%N && bool_decide (Js.of_N n = k))%bool
      then Some n else None
  | None => None
  end.

Fixpoint insert_index (n : N) (e : str * hval) (l : list (N * (str * hval)))
    : list (N * (str * hval)) :=
  match l with
  | [] => [(n, e)]
  | (m, e') :: l' =>
      if (n <=? m)%N then (n, e) :: l else (m, e') :: insert_index n e l'
  end.

(** The properties named by an array index, by ascending index. *)
Fixpoint index_properties (headers : list (str * hval))
    : list (N * (str * hval)) :=
  match headers with
  | [] => []
  | e :: headers' =>
      match array_index e.1 with
      | Some n => insert_index n e (index_properties headers')
      | None => index_properties headers'
      end
  end.

(** [Object.keys(headers)], each key with [headers[key]]: array indices
    first, in ascending numeric order, then the other names in the order
    their properties were created. *)
Definition Object_keys (headers : list (str * hval)) : list (str * hval) :=
  (snd <$> index_properties headers)
  ++ filter (λ e, array_index e.1 = None) headers.

(** *** [createHttpHeader] *)

Definition createHttpHeader (line : str) (headers : list (str * hval)) : str :=
  Js.join CRLF
    (fold_left
       (fun header '(key, value) =>
          match value with
          | HArr l =>
              fold_left (fun header v => header ++ [key ++ lit ": " ++ v]) l header
          | _ => header ++ [key ++ lit ": " ++ hval_to_string value]
          end)
       (Object_keys headers) [line])
  ++ CRLF ++ CRLF.

(** *** The handlers the [stream] pass installs on the upstream request *)

Inductive endpoint := Client | Upstream.

(** What a handler does, in program order. *)
Inductive action :=
| Subscribe (e : endpoint) (event : str)
| SetTimeout (e : endpoint) (ms : nat)
| SetKeepAlive (e : endpoint) (enable : bool) (delay : nat)
| Unshift (e : endpoint) (data : str)
| Write (e : endpoint) (data : str)
| Pipe (src dst : endpoint)
| Emit (event : str).

Definition setupSocket (e : endpoint) : list action :=
  [SetTimeout e 0; SetKeepAlive e true 0].

(** The upstream answer the handlers read. *)
Record upstream_response := {
  httpVersion : str;
  statusCode : str;
  statusMessage : str;
  res_headers : list (str * hval);
  upgrade : bool;
}.

(** [upstreamReq.on("response", ...)] *)
Definition on_response (upstreamRes : upstream_response) : list action :=
  if negb (upgrade upstreamRes) then
    [ Write Client
        (createHttpHeader
           (lit "HTTP/" ++ httpVersion upstreamRes ++ lit " "
              ++ statusCode upstreamRes ++ lit " " ++ statusMessage upstreamRes)
           (res_headers upstreamRes));
      Pipe Upstream Client ]
  else [].

(** [upstreamReq.on("upgrade", ...)] *)
Definition on_upgrade (upstreamRes : upstream_response) (proxyHead : str)
    : list action :=
  [ Subscribe Upstream (lit "error");
    Subscribe Upstream (lit "end");
    Subscribe Client (lit "error") ]
  ++ setupSocket Upstream
  ++ (if Js.truthy proxyHead then [Unshift Upstream proxyHead] else [])
  ++ [ Write Client
         (createHttpHeader (lit "HTTP/1.1 101 Switching Protocols")
            (res_headers upstreamRes));
       Pipe Upstream Client;
       Pipe Client Upstream;
       Emit (lit "open");
       Emit (lit "proxySocket") ].

(** What a trace writes to [e] before the first [Pipe]. *)
Fixpoint written_before_splice (e : endpoint) (tr : list action) : list str :=
  match tr with
  | [] => []
  | Pipe _ _ :: _ => []
  | Write e' data :: tr' =>
      match e, e' with
      | Client, Client | Upstream, Upstream => data :: written_before_splice e tr'
      | _, _ => written_before_splice e tr'
      end
  | _ :: tr' => written_before_splice e tr'
  end.

End WsIncoming.

(* ================================================================== *)
(** ** [src/http-proxy/index.ts] *)
(* ================================================================== *)

Module Server.

Import Common.

(** A pass is a function; the registry looks at its [name] only.
    [body] tells two functions of the same name apart. *)
Record Pass := {
  name : str;
  body : nat;
}.

(** Errors of JavaScript, by message. *)
Definition Error := str.

(** How a call ends. *)
Inductive outcome (A : Type) :=
| Returned (a : A)
| Thrown (e : Error).
Arguments Returned {A} a.
Arguments Thrown {A} e.

(** A listener of the emitter: the server's own [onError] method, or a
    function attached from outside, seen through what a call does. *)
Inductive listener :=
| OwnOnError
| External (f : Error -> outcome unit).

Record ProxyServer := {
  options : proxyOptions;
  webPasses : list Pass;
  wsPasses : list Pass;
  events : gmap str (list listener);
}.

(** *** The emitter (eventemitter3, a dependency outside the
    repository): [on] appends, [listeners] lists in order of
    attachment, [emit] calls them in that order on the caller's stack
    and answers whether there was any; an exception of a listener
    leaves [emit] at once. *)

Definition listeners (self : ProxyServer) (event : str) : list listener :=
  default [] (events self !! event).

Definition on (self : ProxyServer) (event : str) (fn : listener) : ProxyServer :=
  {| options := options self;
     webPasses := webPasses self;
     wsPasses := wsPasses self;
     events := <[event := listeners self event ++ [fn]]> (events self) |}.

(** [onError(err)] *)
Definition onError (self : ProxyServer) (err : Error) : outcome unit :=
  if bool_decide (length (listeners self (lit "error")) = 1)
  then Thrown err
  else Returned tt.

Definition call (self : ProxyServer) (fn : listener) (err : Error) : outcome unit :=
  match fn with
  | OwnOnError => onError self err
  | External f => f err
  end.

Fixpoint call_all (self : ProxyServer) (fns : list listener) (err : Error)
    : outcome unit :=
  match fns with
  | [] => Returned tt
  | fn :: fns' =>
      match call self fn err with
      | Thrown e => Thrown e
      | Returned _ => call_all self fns' err
      end
  end.

Definition emit (self : ProxyServer) (event : str) (err : Error) : outcome bool :=
  match listeners self event with
  | [] => Returned false
  | fns =>
      match call_all self fns err with
      | Thrown e => Thrown e
      | Returned _ => Returned true
      end
  end.

(** *** Construction *)

(** [Object.values(wsPasses)]: the functions of ws-incoming.ts. *)
Definition ws_passes : list Pass :=
  [ {| name := lit "checkMethodAndHeader"; body := 0 |};
    {| name := lit "xHeaders"; body := 1 |};
    {| name := lit "stream"; body := 2 |} ].

(** Modelled from the spec: [Object.values(webPasses)].  The file
    passes/web-incoming.ts is missing; section 4.5 fixes the order
    deleteLength, timeout, xHeaders, stream. *)
Definition web_passes : list Pass :=
  [ {| name := lit "deleteLength"; body := 10 |};
    {| name := lit "timeout"; body := 11 |};
    {| name := lit "xHeaders"; body := 12 |};
    {| name := lit "stream"; body := 13 |} ].

Definition with_prependPath (o : proxyOptions) (b : option bool) : proxyOptions :=
  {| target := target o; forward := forward o; opt_method := opt_method o;
     opt_headers := opt_headers o; auth := auth o; opt_ca := opt_ca o;
     secure := secure o; httpAgent := httpAgent o; httpsAgent := httpsAgent o;
     localAddress := localAddress o; prependPath := b; toProxy := toProxy o;
     ignorePath := ignorePath o; changeOrigin := changeOrigin o;
     xfwd := xfwd o |}.

(** [new ProxyServer(options)] *)
Definition new (opts : proxyOptions) : ProxyServer :=
  let opts :=
    with_prependPath opts
      (Some (if bool_decide (prependPath opts = Some false) then false else true)) in
  on {| options := opts;
        webPasses := web_passes;
        wsPasses := ws_passes;
        events := ∅ |}
     (lit "error") OwnOnError.

(** *** [before] and [after] *)

(** [passes.forEach((v, idx) => { if (v.name === passName) i = idx })],
    started at index [idx] with [i] as found so far. *)
Fixpoint scan (passes : list Pass) (passName : str) (idx : nat)
    (i : option nat) : option nat :=
  match passes with
  | [] => i
  | v :: passes' =>
      scan passes' passName (S idx)
        (if bool_decide (name v = passName) then Some idx else i)
  end.

(** [passes.splice(i, 0, callback)] *)
Definition splice (passes : list Pass) (i : nat) (callback : Pass) : list Pass :=
  take i passes ++ callback :: drop i passes.

Definition set_passes (self : ProxyServer) (type : str) (passes : list Pass)
    : ProxyServer :=
  if bool_decide (type = lit "ws")
  then {| options := options self; webPasses := webPasses self;
          wsPasses := passes; events := events self |}
  else {| options := options self; webPasses := passes;
          wsPasses := wsPasses self; events := events self |}.

Definition passes_of (self : ProxyServer) (type : str) : list Pass :=
  if bool_decide (type = lit "ws") then wsPasses self else webPasses self.

Definition before (self : ProxyServer) (type passName : str) (callback : Pass)
    : outcome ProxyServer :=
  if bool_decide (type ≠ lit "ws") && bool_decide (type ≠ lit "web")
  then Thrown (lit "type must be `web` or `ws`")
  else
    let passes := passes_of self type in
    match scan passes passName 0 None with
    | None => Thrown (lit "No such pass")
    | Some i => Returned (set_passes self type (splice passes i callback))
    end.

(** The last statement is [passes.splice(i++, 0, callback)]: the
    postfix increment hands [splice] the old [i]. *)
Definition after (self : ProxyServer) (type passName : str) (callback : Pass)
    : outcome ProxyServer :=
  if bool_decide (type ≠ lit "ws") && bool_decide (type ≠ lit "web")
  then Thrown (lit "type must be `web` or `ws`")
  else
    let passes := passes_of self type in
    match scan passes passName 0 None with
    | None => Thrown (lit "No such pass")
    | Some i =>
        let arg := i in
        let i := S i in
        Returned (set_passes self type (splice passes arg callback))
    end.

(** *** [all] *)

(** The argument record of [web], [ws] and [all]; responses, sockets
    and callbacks are handles. *)
Record call_args := {
  a_req : IncomingMessage;
  a_res : option nat;
  a_socket : option nat;
  a_head : option str;
  a_errorHandler : option nat;
  a_options : option proxyOptions;
}.

(** Which of [this.web] and [this.ws] is called, and with what. *)
Inductive dispatch :=
| CallWeb (args : call_args)
| CallWs (args : call_args).

Definition all (args : call_args) : dispatch :=
  let ws := isWebsocket (a_req args) in
  if negb ws then CallWeb args
  else CallWs {| a_req := a_req args;
                 a_res := None;
                 a_socket := match a_socket args with
                             | Some s => Some s
                             | None => Some (req_socket (a_req args))
                             end;
                 a_head := match a_head args with
                           | Some h => Some h
                           | None => Some []
                           end;
                 a_errorHandler := a_errorHandler args;
                 a_options := a_options args |}.

End Server.

(* ================================================================== *)
(** ** The statements of the specification, in declarative form *)
(* ================================================================== *)

Module Spec.

Import Common.

(** [p] occurs in [s]. *)
Definition occurs_in (p s : str) : Prop := ∃ a b, s = a ++ p ++ b.

(** The pattern as section 4.1 prints it, [/^https|wss$/]: "starts with
    https" or "ends with wss". *)
Definition scheme_pattern_of_spec (s : str) : bool :=
  (Js.starts_with (lit "https") s
   || Js.starts_with (reverse (lit "wss")) (reverse s))%bool.

(** The port rule of the code in words: an explicit port that is truthy
    wins; otherwise 443 when the protocol starts with "https" or holds
    "wss", and 80 in every other case. *)
Inductive resolves_port (t : UrlObject) : port_value → Prop :=
| port_explicit p :
    port t = Some p → port_truthy p = true → resolves_port t p
| port_tls s :
    (port t = None ∨ ∃ p, port t = Some p ∧ port_truthy p = false) →
    protocol t = Some s →
    lit "https" `prefix_of` s ∨ occurs_in (lit "wss") s →
    resolves_port t (PortNum 443)
| port_plain :
    (port t = None ∨ ∃ p, port t = Some p ∧ port_truthy p = false) →
    (∀ s, protocol t = Some s →
          ¬ lit "https" `prefix_of` s ∧ ¬ occurs_in (lit "wss") s) →
    resolves_port t (PortNum 80).

(** The request carries an [Upgrade] header equal to "websocket" up to
    letter case. *)
Definition upgrade_is_websocket (req : IncomingMessage) : Prop :=
  ∃ u, req_headers req !! lit "upgrade" = Some u
       ∧ Js.toLowerCase u = lit "websocket".

(** No colon in [h] has a digit right behind it. *)
Definition no_colon_digit (h : str) : Prop :=
  ∀ a d b, h = a ++ ":" :: d :: b → Js.is_digit d = false.

(** [h] reads [pre ++ ":" ++ ds ++ rest], where the colon is the first
    one in [h] with a digit behind it and [ds] is the whole run of
    digits that follows it. *)
Definition first_colon_digits (h pre ds rest : str) : Prop :=
  h = pre ++ ":" :: ds ++ rest
  ∧ ds ≠ []
  ∧ Forall (λ c, Js.is_digit c = true) ds
  ∧ (∀ c r, rest = c :: r → Js.is_digit c = false)
  ∧ no_colon_digit pre.

(** What "append to a header" means in the [xHeaders] pass: the old
    value and a comma first when the header already holds something. *)
Definition appended (old : option str) (value : str) : str :=
  match old with
  | Some (c :: o) => (c :: o) ++ [","] ++ value
  | _ => value
  end.

(** Carriage return, line feed. *)
Definition cr_lf : str := ["013"; "010"].

(** The header block of a response, one "Key: Value" line per header in
    the order given, an array-valued header giving one line per
    element. *)
Definition header_lines (headers : list (str * hval)) : list str :=
  headers ≫= λ '(key, value),
    match value with
    | HStr s => [key ++ [":"; " "] ++ s]
    | HArr l => (λ v, key ++ [":"; " "] ++ v) <$> l
    | HUndef => [key ++ [":"; " "] ++ lit "undefined"]
    end.

(** The answer to a successful upgrade as it goes over the wire: status
    line, header lines, empty line, each closed by CR LF. *)
Definition switching_protocols (headers : list (str * hval)) : str :=
  lit "HTTP/1.1 101 Switching Protocols" ++ cr_lf
  ++ (header_lines headers ≫= λ l, l ++ cr_lf)
  ++ cr_lf.

(** [k] is the array index [n]: the decimal text of an integer below
    [2^32 - 1]. *)
Definition index_name (k : str) (n : N) : Prop :=
  (n < 4294967295)%N ∧ k = Js.of_N n.

(** The order in which an object gives out its own properties: first
    those named by an array index, by ascending index, then all others
    in the order of [obj], the order in which they were created. *)
Definition own_property_order (obj enumerated : list (str * hval)) : Prop :=
  ∃ indices names,
    enumerated = indices ++ names
    ∧ indices ++ names ≡ₚ obj
    ∧ names `sublist_of` obj
    ∧ Forall (λ e, ∀ n, ¬ index_name e.1 n) names
    ∧ Forall (λ e, ∃ n, index_name e.1 n) indices
    ∧ StronglySorted
        (λ a b, ∃ n m, index_name a.1 n ∧ index_name b.1 m ∧ (n ≤ m)%N)
        indices.

(** A port as a number, when it is one or a string of digits. *)
Definition port_number (p : port_value) : option N :=
  match p with
  | PortNum n => Some n
  | PortStr s =>
      if Js.truthy s && forallb Js.is_digit s
      then Some (fold_left (λ n c, (10 * n + (Js.code c - 48))%N) s 0%N)
      else None
  end.

(** An instance of the well-known-port test for worked examples, after
    the table of the requires-port package: 80 for http and ws, 443 for
    https and wss, 21 for ftp, 70 for gopher, never for file, and any
    port but 0 for other schemes. *)
Definition well_known_port_test (p : port_value) (protocol : str) : bool :=
  let scheme := hd [] (Js.split ":" protocol) in
  match port_number p with
  | None => false
  | Some n =>
      if (n =? 0)%N then false
      else if bool_decide (scheme = lit "http" ∨ scheme = lit "ws") then negb (n =? 80)%N
      else if bool_decide (scheme = lit "https" ∨ scheme = lit "wss") then negb (n =? 443)%N
      else if bool_decide (scheme = lit "ftp") then negb (n =? 21)%N
      else if bool_decide (scheme = lit "gopher") then negb (n =? 70)%N
      else if bool_decide (scheme = lit "file") then false
      else true
  end.

(** [name] spells [property] up to letter case. *)
Definition same_ci (property name : str) : Prop :=
  Forall2 (λ x y, Js.eq_ci x y = true) property name.

(** [header] reads [pre ++ p ++ v ++ rest] where [p ++ v] is a match of
    [/(;\s*<property>=)([^;]+)/i]: [p] is a semicolon, white space, the
    attribute name in any letter case and "="; [v] is the value, not
    empty, free of semicolons and as long as it can be. *)
Definition attribute_at (property header pre p v rest : str) : Prop :=
  header = pre ++ p ++ v ++ rest
  ∧ (∃ ws name,
       p = ";" :: ws ++ name ++ ["="]
       ∧ Forall (λ c, Js.is_space c = true) ws
       ∧ same_ci property name)
  ∧ v ≠ []
  ∧ (";" ∉ v)
  ∧ (∀ c r, rest = c :: r → c = ";").

(** What takes the place of the match [p ++ v] under a rewrite table,
    a mapping of original value to replacement ([None] for [null]). *)
Inductive replacement (table : gmap str (option str)) (p v : str) : str → Prop :=
| replace_mapped r :
    table !! v = Some (Some r) → r ≠ [] → replacement table p v (p ++ r)
| remove_mapped :
    table !! v = Some None ∨ table !! v = Some (Some []) →
    replacement table p v []
| replace_fallback r :
    table !! v = None → table !! lit "*" = Some (Some r) → r ≠ [] →
    replacement table p v (p ++ r)
| remove_fallback :
    table !! v = None →
    table !! lit "*" = Some None ∨ table !! lit "*" = Some (Some []) →
    replacement table p v []
| keep_unmatched :
    table !! v = None → table !! lit "*" = None →
    replacement table p v (p ++ v).

(** An attribute name free of regular-expression metacharacters:
    ASCII letters, digits, "-" and "_". *)
Definition plain_name (property : str) : Prop :=
  Forall (λ c, (Js.in_range 97 122 c || Js.in_range 65 90 c
                || Js.is_digit c || Ascii.eqb c "-" || Ascii.eqb c "_")%bool
               = true) property.

(** The part of a string in front of its first "?", and the part from
    that "?" on (empty when there is none). *)
Fixpoint before_query (s : str) : str :=
  match s with
  | [] => []
  | c :: s' => if Ascii.eqb c "?" then [] else c :: before_query s'
  end.

Fixpoint from_query (s : str) : str :=
  match s with
  | [] => []
  | c :: s' => if Ascii.eqb c "?" then s else from_query s'
  end.

(** Wherever [s] has two slashes in a row, "http:" or "https:" stands
    right in front of them. *)
Definition slashes_ok (s : str) : Prop :=
  ∀ pre post, s = pre ++ "/" :: "/" :: post →
    lit "http:" `suffix_of` pre ∨ lit "https:" `suffix_of` pre.

(** A path the three [replace] calls leave alone: no two slashes in a
    row and no "http:/" or "https:/". *)
Definition tidy (s : str) : Prop :=
  ¬ occurs_in (lit "//") s
  ∧ ¬ occurs_in (lit "http:/") s
  ∧ ¬ occurs_in (lit "https:/") s.

End Spec.

(* ================================================================== *)
(** ** Inputs of the worked cases *)
(* ================================================================== *)

Module Inputs.

Import Common Server.

(** An upstream answer that presents [upgrade] and then a header named
    by a number. *)
Definition index_named_response : WsIncoming.upstream_response :=
  {| WsIncoming.httpVersion := lit "1.1";
     WsIncoming.statusCode := lit "101";
     WsIncoming.statusMessage := lit "Switching Protocols";
     WsIncoming.res_headers :=
       [ (lit "upgrade", HStr (lit "websocket")); (lit "7", HStr (lit "x")) ];
     WsIncoming.upgrade := true |}.

(** An upstream answer with an array-valued header and two headers
    named by numbers, the larger presented first. *)
Definition mixed_response : WsIncoming.upstream_response :=
  {| WsIncoming.httpVersion := lit "1.1";
     WsIncoming.statusCode := lit "101";
     WsIncoming.statusMessage := lit "Switching Protocols";
     WsIncoming.res_headers :=
       [ (lit "upgrade", HStr (lit "websocket"));
         (lit "10", HStr (lit "b"));
         (lit "set-cookie", HArr [lit "a=1"; lit "b=2"]);
         (lit "9", HStr (lit "a")) ];
     WsIncoming.upgrade := true |}.

Definition bare_url (proto : option str) (p : option port_value) : UrlObject :=
  {| protocol := proto; host := Some (lit "upstream");
     hostname := Some (lit "upstream"); port := p; path := None;
     socketPath := None; tls := no_tls |}.

(** A target given as a record: host without a port, port 8080. *)
Definition upstream_8080 : UrlObject :=
  {| protocol := Some (lit "http:");
     host := Some (lit "upstream");
     hostname := Some (lit "upstream");
     port := Some (PortNum 8080);
     path := Some (lit "/api");
     socketPath := None;
     tls := no_tls |}.

(** [{}] as the object to fill. *)
Definition blank_request_options : RequestOptions :=
  {| o_port := None; o_host := None; o_hostname := None;
     o_socketPath := None; o_tls := no_tls;
     o_method := []; o_headers := ∅; o_auth := None;
     o_rejectUnauthorized := None; o_agent := None;
     o_localAddress := None; o_path := [] |}.

Definition change_origin_options : proxyOptions :=
  {| target := Some upstream_8080; forward := None;
     opt_method := None; opt_headers := None;
     auth := None; opt_ca := None; secure := None;
     httpAgent := None; httpsAgent := None;
     localAddress := None; prependPath := None;
     toProxy := false; ignorePath := false;
     changeOrigin := true; xfwd := false |}.

(** A POST request that asks for a WebSocket upgrade. *)
Definition post_upgrade_request : IncomingMessage :=
  {| req_method := lit "POST";
     req_url := lit "/chat";
     req_headers := {[ lit "upgrade" := lit "websocket" ]};
     req_connection := None;
     req_socket := 3;
     remoteAddress := None |}.

Definition post_upgrade_args : call_args :=
  {| a_req := post_upgrade_request; a_res := Some 1; a_socket := None;
     a_head := None; a_errorHandler := None; a_options := None |}.

(** An IPv6 literal in front of the port, and an earlier entry in
    [x-forwarded-port]. *)
Definition ipv6_request : IncomingMessage :=
  {| req_method := lit "GET";
     req_url := lit "/";
     req_headers := {[ lit "host" := lit "[::1]:8080";
                       lit "x-forwarded-port" := lit "443" ]};
     req_connection := None;
     req_socket := 4;
     remoteAddress := Some (lit "10.0.0.7") |}.

(** [self.on("error", f)] for each outside listener in turn. *)
Definition attach (fs : list (Error → outcome unit)) (self : ProxyServer)
    : ProxyServer :=
  fold_left (λ s f, on s (lit "error") (External f)) fs self.

(** A WebSocket upgrade request. *)
Definition upgrade_request : IncomingMessage :=
  {| req_method := lit "GET";
     req_url := lit "/chat?room=1";
     req_headers := {[ lit "upgrade" := lit "WebSocket";
                       lit "connection" := lit "keep-alive, Upgrade";
                       lit "host" := lit "proxy.example:8443" ]};
     req_connection := Some {| encrypted := true; pair := false |};
     req_socket := 5;
     remoteAddress := Some (lit "10.0.0.9") |}.

Definition upgrade_args : call_args :=
  {| a_req := upgrade_request; a_res := None; a_socket := Some 5;
     a_head := Some (lit "hi"); a_errorHandler := None; a_options := None |}.

(** Options with a target record and [xfwd]. *)
Definition xfwd_options : proxyOptions :=
  {| target := Some upstream_8080; forward := None; opt_method := None;
     opt_headers := None; auth := None; opt_ca := None; secure := None;
     httpAgent := None; httpsAgent := None; localAddress := None;
     prependPath := None; toProxy := false; ignorePath := false;
     changeOrigin := false; xfwd := true |}.

(** Options with a forward URL only. *)
Definition forward_only_options : proxyOptions :=
  {| target := None; forward := Some upstream_8080; opt_method := None;
     opt_headers := None; auth := None; opt_ca := None; secure := None;
     httpAgent := None; httpsAgent := None; localAddress := None;
     prependPath := None; toProxy := false; ignorePath := false;
     changeOrigin := false; xfwd := false |}.

(** Options that ignore the request path and overlay one header. *)
Definition ignore_path_options : proxyOptions :=
  {| target := Some upstream_8080; forward := None; opt_method := None;
     opt_headers := Some {[ lit "x-api-key" := HStr (lit "k1") ]};
     auth := None; opt_ca := None; secure := None;
     httpAgent := None; httpsAgent := None; localAddress := None;
     prependPath := None; toProxy := true; ignorePath := true;
     changeOrigin := true; xfwd := false |}.

(** A secure WebSocket target, with a pool for plain HTTP only. *)
Definition wss_options : proxyOptions :=
  {| target := Some (bare_url (Some (lit "wss:")) None);
     forward := None; opt_method := None; opt_headers := None;
     auth := None; opt_ca := None; secure := None;
     httpAgent := Some 1; httpsAgent := None; localAddress := None;
     prependPath := None; toProxy := false; ignorePath := false;
     changeOrigin := false; xfwd := false |}.

(** The spread when the call brings no options of its own. *)
Definition server_options_only (o : proxyOptions) (_ : option proxyOptions)
    : proxyOptions := o.

End Inputs.

(* ================================================================== *)
(** ** [createRightProxy]: walking a pass list *)
(* ================================================================== *)

Module Pipeline.

Import Common Server.

(** What a call of a pass comes to: a falsy answer, a truthy answer, or
    an exception. *)
Inductive pass_result :=
| Continue
| Halt
| Raise (e : Error).

(** How the loop over the passes is left. *)
Inductive ending :=
| Completed
| Halted
| Raised (e : Error).

Section Executor.

(** [{ ...this.options, ...options }]: the object spread, which knows
    which properties the per-call object owns. *)
Variable spread : proxyOptions → option proxyOptions → proxyOptions.

(** What the passes act on (the request object, the writer). *)
Variable St : Type.

(** [passes[i](req, res || socket, requestOptions, head, this,
    errorHandler)]. *)
Variable invoke :
  ProxyServer → Pass → call_args → proxyOptions → St → pass_result * St.

(** The [for] loop with its [break]: the passes called, in order, how
    the loop ended, and the state left behind. *)
Fixpoint run_passes (self : ProxyServer) (passes : list Pass)
    (args : call_args) (requestOptions : proxyOptions) (st : St)
    : list Pass * ending * St :=
  match passes with
  | [] => ([], Completed, st)
  | pass :: passes' =>
      match invoke self pass args requestOptions st with
      | (Raise e, st') => ([pass], Raised e, st')
      | (Halt, st') => ([pass], Halted, st')
      | (Continue, st') =>
          let '(called, e, st'') :=
            run_passes self passes' args requestOptions st' in
          (pass :: called, e, st'')
      end
  end.

Inductive run :=
| Unconfigured (emitted : outcome bool)
| Walked (called : list Pass) (e : ending) (st : St).

(** [processRequest(args)] of [createRightProxy(type)].  Targets are
    URL records here, so the [typeof ... === "string"] branch that runs
    them through [url.parse] does not fire. *)
Definition processRequest (type : str) (self : ProxyServer)
    (args : call_args) (st : St) : run :=
  let passes := if bool_decide (type = lit "ws")
                then wsPasses self else webPasses self in
  let requestOptions := spread (options self) (a_options args) in
  match target requestOptions, forward requestOptions with
  | None, None =>
      Unconfigured
        (emit self (lit "error") (lit "Must provide a proper URL as target"))
  | _, _ =>
      let '(called, e, st') := run_passes self passes args requestOptions st in
      Walked called e st'
  end.

End Executor.

End Pipeline.

(* ================================================================== *)
(** ** The WebSocket passes as the pipeline calls them *)
(* ================================================================== *)

Module WsPasses.

Import Common Server WsIncoming Pipeline.

(** What the passes do to the outside, in program order. *)
Inductive event :=
| OnSocket (a : action)
| Destroy (e : endpoint)
| Request (secure : bool) (o : RequestOptions)
| ServerEmit (name : str)
| OnUpstream (name : str)
| EndRequest
| HandlerCalled
| EndSocket (e : endpoint).

(** The request object, which [xHeaders] writes to, and what happened
    so far. *)
Record state := {
  req : IncomingMessage;
  log : list event;
}.

Definition record (st : state) (evs : list event) : state :=
  {| req := req st; log := log st ++ evs |}.

Section Passes.

Variable requiresPort : port_value → str → bool.
Variable url_parse_path : str → option (option str).

(** [{ ...options.ssl, ...options.requestOptions }], the object handed
    to [setupOutgoing] to fill. *)
Variable requestOptions_of : proxyOptions → RequestOptions.

(** Whether [upstreamReq.end()] answers something truthy (Node hands
    back the request itself). *)
Variable end_is_truthy : bool.

Definition checkMethodAndHeader (st : state) : pass_result * state :=
  if negb (isWebsocket (req st))
  then (Halt, record st [Destroy Client])
  else (Continue, st).

Definition xHeaders_pass (options : proxyOptions) (st : state)
    : pass_result * state :=
  (Continue, {| req := xHeaders (req st) options; log := log st |}).

(** The [stream] pass up to its [return]: the handlers it installs run
    later, see [on_response] and [on_upgrade]. *)
Definition stream (options : proxyOptions) (head : option str) (st : state)
    : pass_result * state :=
  let st := record st (OnSocket <$> setupSocket Client) in
  let st := match head with
            | Some h => if Js.truthy h then record st [OnSocket (Unshift Client h)] else st
            | None => st
            end in
  match target options with
  | None => (Raise (lit "TypeError"), st)
  | Some t =>
      match setupOutgoing requiresPort url_parse_path
              (requestOptions_of options) options (req st) Target with
      | None => (Raise (lit "raised by setupOutgoing"), st)
      | Some outgoing =>
          (if end_is_truthy then Halt else Continue,
           record st
             [ Request (isSSL_test (protocol t)) outgoing;
               ServerEmit (lit "proxyReqWs");
               OnUpstream (lit "error");
               OnUpstream (lit "response");
               OnUpstream (lit "upgrade");
               EndRequest ])
      end
  end.

(** Passes put in by [before] and [after]. *)
Variable inserted : Pass → proxyOptions → state → pass_result * state.

(** The three functions of the file are the bodies 0, 1 and 2 of
    [ws_passes]. *)
Definition invoke (self : ProxyServer) (pass : Pass) (args : call_args)
    (requestOptions : proxyOptions) (st : state) : pass_result * state :=
  match body pass with
  | 0 => checkMethodAndHeader st
  | 1 => xHeaders_pass requestOptions st
  | 2 => stream requestOptions (a_head args) st
  | _ => inserted pass requestOptions st
  end.

(** [{ ...this.options, ...options }], as in [Pipeline]. *)
Variable spread : proxyOptions → option proxyOptions → proxyOptions.

(** [this.ws(args)], that is [createRightProxy("ws")] called on a
    request whose log is still empty. *)
Definition ws (self : ProxyServer) (args : call_args) : run state :=
  processRequest spread state invoke (lit "ws") self args
    {| req := a_req args; log := [] |}.

(** [onOutgoingError(err)] of the [stream] pass. *)
Definition onOutgoingError (self : ProxyServer)
    (errorHandler : option (Error → outcome unit)) (err : Error)
    : list event * outcome unit :=
  match errorHandler with
  | Some handler =>
      match handler err with
      | Thrown e => ([HandlerCalled], Thrown e)
      | Returned _ => ([HandlerCalled; EndSocket Client], Returned tt)
      end
  | None =>
      match emit self (lit "error") err with
      | Thrown e => ([ServerEmit (lit "error")], Thrown e)
      | Returned _ => ([ServerEmit (lit "error"); EndSocket Client], Returned tt)
      end
  end.

End Passes.

End WsPasses.

(* ================================================================== *)
(** ** [src/index.ts]: the factory *)
(* ================================================================== *)

Module Factory.

Import Common Server.



End Factory.

(* ================================================================== *)
(** ** Further statements in declarative form *)
(* ================================================================== *)

Module SpecMore.

Import Common Spec.

(** [s] holds the token "upgrade", in any letter case, as one item of a
    comma-separated list: between the start or a comma and a comma or
    the end, with white space around it at most. *)
Definition upgrade_token (s : str) : Prop :=
  ∃ a ws1 u ws2 b,
    s = a ++ ws1 ++ u ++ ws2 ++ b
    ∧ (a = [] ∨ ∃ a', a = a' ++ [","])
    ∧ Forall (λ c, Js.is_space c = true) ws1
    ∧ same_ci (lit "upgrade") u
    ∧ Forall (λ c, Js.is_space c = true) ws2
    ∧ (b = [] ∨ ∃ b', b = "," :: b').

(** The text of a cookie header in front of its first semicolon: the
    name and value of the cookie. *)
Definition cookie_pair (header : str) : str := (span_value header).1.

(** The target path and the request path [setupOutgoing] joins. *)
Definition chosen_target_path (options : proxyOptions) (t : UrlObject) : str :=
  if bool_decide (prependPath options = Some false) then []
  else default [] (path t).

(** [url.parse] is not called, or it returns on the request URL. *)
Definition url_parse_returns (url_parse_path : str → option (option str))
    (options : proxyOptions) (req : IncomingMessage) : Prop :=
  toProxy options = true ∨ ∃ p, url_parse_path (req_url req) = Some p.

Definition chosen_request_path (url_parse_path : str → option (option str))
    (options : proxyOptions) (req : IncomingMessage) : str :=
  if ignorePath options then []
  else if toProxy options then req_url req
  else match url_parse_path (req_url req) with
       | Some (Some p) => p
       | _ => []
       end.

(** The inbound headers under the overlay of [options.headers]. *)
Definition merged_headers (options : proxyOptions) (req : IncomingMessage)
    : gmap str hval :=
  match opt_headers options with
  | Some h => h ∪ (HStr <$> req_headers req)
  | None => HStr <$> req_headers req
  end.

(** The headers before the [Host] rewrite. *)
Definition settled_headers (options : proxyOptions) (req : IncomingMessage)
    (t : UrlObject) : gmap str hval :=
  match (if bool_decide (protocol t = Some (lit "http:"))
         then httpAgent options else httpsAgent options) with
  | Some _ => merged_headers options req
  | None => force_close (merged_headers options req)
  end.

End SpecMore.

(* ================================================================== *)
(** * Properties *)
(* ================================================================== *)

Import Spec Inputs.

(** ** Occurrences of one string in another *)

Section Substrings.

Import Js.

Lemma ascii_eqb_true (a b : ascii) : Ascii.eqb a b = true ↔ a = b.
Proof. apply Ascii.eqb_eq. Qed.

Lemma ascii_eqb_false (a b : ascii) : Ascii.eqb a b = false ↔ a ≠ b.
Proof. apply Ascii.eqb_neq. Qed.

Lemma strip_prefix_Some (p s r : str) :
  strip_prefix p s = Some r ↔ s = p ++ r.
Proof.
  revert s. induction p as [|a p IH]; intros s; simpl.
  - split; [intros [= ->]; reflexivity | intros ->; reflexivity].
  - destruct s as [|b s]; [split; discriminate|].
    destruct (Ascii.eqb a b) eqn:E.
    + apply ascii_eqb_true in E as ->. rewrite IH.
      split; [intros ->; reflexivity | intros [= ->]; reflexivity].
    + apply ascii_eqb_false in E. split; [discriminate|].
      intros [= -> _]. contradiction.
Qed.

Lemma strip_prefix_None (p s : str) :
  strip_prefix p s = None ↔ ¬ p `prefix_of` s.
Proof.
  split.
  - intros H [r Hr]. apply strip_prefix_Some in Hr. congruence.
  - intros H. destruct (strip_prefix p s) as [r|] eqn:E; [|reflexivity].
    apply strip_prefix_Some in E. exfalso. apply H. exists r. exact E.
Qed.

Lemma starts_with_true (p s : str) : starts_with p s = true ↔ p `prefix_of` s.
Proof.
  unfold starts_with. destruct (strip_prefix p s) as [r|] eqn:E.
  - apply strip_prefix_Some in E. split; [intros _; exists r; exact E | reflexivity].
  - apply strip_prefix_None in E. split; [discriminate | contradiction].
Qed.

Lemma includes_true (p s : str) : includes p s = true ↔ occurs_in p s.
Proof.
  induction s as [|c s IH].
  - simpl. rewrite orb_false_r, starts_with_true. split.
    + intros [r Hr]. exists [], r. exact Hr.
    + intros (a & b & H). destruct a; [exists b; exact H | discriminate].
  - cbn [includes]. rewrite orb_true_iff, starts_with_true, IH. split.
    + intros [[r Hr] | (a & b & H)].
      * exists [], r. exact Hr.
      * exists (c :: a), b. rewrite H. reflexivity.
    + intros (a & b & H). destruct a as [|c' a].
      * left. exists b. exact H.
      * right. injection H as _ H. exists a, b. exact H.
Qed.

Lemma includes_char (c : ascii) (s : str) : includes [c] s = true ↔ c ∈ s.
Proof.
  rewrite includes_true. split.
  - intros (a & b & ->). set_solver.
  - intros H. apply list_elem_of_split in H as (a & b & ->). exists a, b. reflexivity.
Qed.

End Substrings.

(** ** The pass registry *)

Section Registry.

Import Common Server.

Lemma scan_app (l1 l2 : list Pass) (passName : str) (idx : nat) (i : option nat) :
  scan (l1 ++ l2) passName idx i
  = scan l2 passName (idx + length l1) (scan l1 passName idx i).
Proof.
  revert idx i. induction l1 as [|v l1 IH]; intros idx i; simpl.
  - rewrite Nat.add_0_r. reflexivity.
  - rewrite IH. f_equal. lia.
Qed.

Lemma scan_no_match (l : list Pass) (passName : str) (idx : nat) (i : option nat) :
  Forall (λ q, name q ≠ passName) l → scan l passName idx i = i.
Proof.
  intros H. revert idx. induction H as [|q l Hq _ IH]; intros idx; simpl.
  - reflexivity.
  - rewrite bool_decide_false by exact Hq. apply IH.
Qed.

Lemma scan_last (l1 l2 : list Pass) (p : Pass) (passName : str) :
  name p = passName →
  Forall (λ q, name q ≠ passName) l2 →
  scan (l1 ++ p :: l2) passName 0 None = Some (length l1).
Proof.
  intros Hp Hl2. rewrite scan_app. simpl.
  rewrite bool_decide_true by exact Hp.
  apply scan_no_match. exact Hl2.
Qed.

Lemma splice_at_length (l1 l2 : list Pass) (callback : Pass) :
  splice (l1 ++ l2) (length l1) callback = l1 ++ callback :: l2.
Proof.
  unfold splice. rewrite take_app_length, drop_app_length. reflexivity.
Qed.

Lemma passes_of_set_passes (self : ProxyServer) (type : str) (l : list Pass) :
  passes_of (set_passes self type l) type = l.
Proof.
  unfold passes_of, set_passes. case_bool_decide; simpl; reflexivity.
Qed.

(** C1. On the WebSocket list of a fresh server,
    [after("ws", "xHeaders", stage)] puts [stage] in front of the
    [xHeaders] pass, not behind it: the list becomes
    checkMethodAndHeader, stage, xHeaders, stream. *)
Theorem after_xHeaders_lands_before_anchor (opts : proxyOptions) (stage : Pass) :
  ∃ self',
    after (new opts) (lit "ws") (lit "xHeaders") stage = Returned self'
    ∧ wsPasses self'
      = [ {| name := lit "checkMethodAndHeader"; body := 0 |};
          stage;
          {| name := lit "xHeaders"; body := 1 |};
          {| name := lit "stream"; body := 2 |} ]
    ∧ webPasses self' = webPasses (new opts).
Proof.
  eexists. split; [reflexivity|]. split; reflexivity.
Qed.

(** C9. When the anchor name occurs in the chosen list and [p] is its
    last occurrence (no pass behind [p] bears the name), the scan of
    [before] and [after] ends on the index of [p], and both calls put
    the new stage at that index, whatever earlier passes share the
    name. *)
Theorem anchor_resolves_to_last_occurrence
    (self : ProxyServer) (type passName : str) (stage p : Pass)
    (l1 l2 : list Pass) :
  type = lit "web" ∨ type = lit "ws" →
  passes_of self type = l1 ++ p :: l2 →
  name p = passName →
  Forall (λ q, name q ≠ passName) l2 →
  scan (passes_of self type) passName 0 None = Some (length l1)
  ∧ (∃ self', before self type passName stage = Returned self'
              ∧ passes_of self' type = l1 ++ stage :: p :: l2)
  ∧ (∃ self', after self type passName stage = Returned self'
              ∧ passes_of self' type = l1 ++ stage :: p :: l2).
Proof.
  intros Htype Hl Hp Hl2.
  assert (Hscan : scan (passes_of self type) passName 0 None = Some (length l1))
    by (rewrite Hl; apply scan_last; assumption).
  assert (Hkind : bool_decide (type ≠ lit "ws") && bool_decide (type ≠ lit "web") = false).
  { destruct Htype as [-> | ->]; reflexivity. }
  split; [exact Hscan|].
  split; eexists; (split; [unfold before, after; rewrite Hkind, Hscan; reflexivity|]);
    rewrite passes_of_set_passes, Hl; apply splice_at_length.
Qed.

(** Two passes named "xHeaders" in the WebSocket list: the anchor is the
    second one. *)
Lemma anchor_resolves_to_last_occurrence_witness :
  let dup := {| name := lit "xHeaders"; body := 7 |} in
  let self := {| options := no_options; webPasses := web_passes;
                 wsPasses := dup :: ws_passes; events := ∅ |} in
  let stage := {| name := lit "mine"; body := 8 |} in
  scan (passes_of self (lit "ws")) (lit "xHeaders") 0 None = Some 2
  ∧ (∃ self', before self (lit "ws") (lit "xHeaders") stage = Returned self'
              ∧ passes_of self' (lit "ws")
                = [dup; {| name := lit "checkMethodAndHeader"; body := 0 |}]
                  ++ stage :: {| name := lit "xHeaders"; body := 1 |}
                  :: [{| name := lit "stream"; body := 2 |}])
  ∧ (∃ self', after self (lit "ws") (lit "xHeaders") stage = Returned self'
              ∧ passes_of self' (lit "ws")
                = [dup; {| name := lit "checkMethodAndHeader"; body := 0 |}]
                  ++ stage :: {| name := lit "xHeaders"; body := 1 |}
                  :: [{| name := lit "stream"; body := 2 |}]).
Proof.
  intros dup self stage.
  apply (anchor_resolves_to_last_occurrence self (lit "ws") (lit "xHeaders") stage
           {| name := lit "xHeaders"; body := 1 |}
           [dup; {| name := lit "checkMethodAndHeader"; body := 0 |}]
           [{| name := lit "stream"; body := 2 |}]).
  - right. reflexivity.
  - reflexivity.
  - reflexivity.
  - repeat constructor. simpl. discriminate.
Defined.

End Registry.

(** ** Routing in [all] *)

Section Routing.

Import Common Server.

Lemma isWebsocket_true (req : IncomingMessage) :
  isWebsocket req = true
  ↔ req_method req = lit "GET" ∧ upgrade_is_websocket req.
Proof.
  unfold isWebsocket, upgrade_is_websocket.
  rewrite andb_true_iff, bool_decide_eq_true.
  destruct (req_headers req !! lit "upgrade") as [u|].
  - rewrite andb_true_iff, bool_decide_eq_true. split.
    + intros (Hm & _ & Hu). split; [exact Hm | exists u; split; [reflexivity | exact Hu]].
    + intros (Hm & u' & [= <-] & Hu). split; [exact Hm|]. split; [|exact Hu].
      destruct u; [discriminate Hu | reflexivity].
  - split; [intros [_ [=]] | intros (_ & u & [=] & _)].
Qed.

(** C6, as stated, fails: a POST request whose [Upgrade] header is
    "websocket" goes to the web pipeline. *)
Lemma all_sends_post_upgrade_to_web :
  upgrade_is_websocket (a_req post_upgrade_args)
  ∧ all post_upgrade_args = CallWeb post_upgrade_args.
Proof.
  split; [|reflexivity].
  exists (lit "websocket"). split; reflexivity.
Qed.

(** C6, amended. [all] calls [ws] exactly when the method is GET and the
    [Upgrade] header is present and equals "websocket" up to letter
    case; in every other case it calls [web] with the arguments it was
    given. *)
Theorem all_routes_on_method_and_upgrade (args : call_args) :
  ((∃ args', all args = CallWs args')
   ↔ req_method (a_req args) = lit "GET" ∧ upgrade_is_websocket (a_req args))
  ∧ (¬ (req_method (a_req args) = lit "GET" ∧ upgrade_is_websocket (a_req args))
     ↔ all args = CallWeb args)
  ∧ (∀ args', all args = CallWs args' → a_req args' = a_req args ∧ a_res args' = None).
Proof.
  rewrite <- isWebsocket_true. unfold all.
  destruct (isWebsocket (a_req args)); simpl.
  - split; [|split].
    + split; [reflexivity | intros _; eexists; reflexivity].
    + split; [intros H; exfalso; apply H; reflexivity | discriminate].
    + intros args' [= <-]. split; reflexivity.
  - split; [|split].
    + split; [intros [args' [=]] | discriminate].
    + split; [reflexivity | intros _; discriminate].
    + intros args' [=].
Qed.

End Routing.

(** ** The outbound port *)

Section OutboundPort.

Import Common.

Lemma isSSL_matches_true (s : str) :
  isSSL_matches s = true
  ↔ lit "https" `prefix_of` s ∨ occurs_in (lit "wss") s.
Proof.
  unfold isSSL_matches.
  rewrite orb_true_iff, starts_with_true, includes_true. reflexivity.
Qed.

(** C4, as stated, fails.  For the protocol "wss:" that [url.parse]
    yields, and for a protocol such as "wssx:", the code picks 443
    although the pattern [/^https|wss$/] of the claim matches neither
    the protocol nor the scheme without its colon. *)
Lemma outgoing_port_is_not_the_anchored_pattern :
  outgoing_port (bare_url (Some (lit "wss:")) None) = PortNum 443
  ∧ scheme_pattern_of_spec (lit "wss:") = false
  ∧ outgoing_port (bare_url (Some (lit "wssx:")) None) = PortNum 443
  ∧ scheme_pattern_of_spec (lit "wssx:") = false
  ∧ scheme_pattern_of_spec (lit "wssx") = false.
Proof. repeat split; reflexivity. Qed.

(** C4, amended. The outbound port is the explicit port of the URL
    record when it is truthy; otherwise it is 443 when the protocol
    starts with "https" or holds "wss" anywhere (the pattern
    [/^https|wss/]) and 80 in every other case.  For the protocols
    "https:" and "wss:" without a port that is 443, for "http:" and
    "ws:" it is 80. *)
Theorem outgoing_port_resolution (t : UrlObject) :
  resolves_port t (outgoing_port t)
  ∧ (∀ p, resolves_port t p → p = outgoing_port t)
  ∧ outgoing_port (bare_url (Some (lit "https:")) None) = PortNum 443
  ∧ outgoing_port (bare_url (Some (lit "wss:")) None) = PortNum 443
  ∧ outgoing_port (bare_url (Some (lit "http:")) None) = PortNum 80
  ∧ outgoing_port (bare_url (Some (lit "ws:")) None) = PortNum 80.
Proof.
  assert (Hdefault :
    (port t = None ∨ ∃ p, port t = Some p ∧ port_truthy p = false) →
    outgoing_port t = PortNum (if isSSL_test (protocol t) then 443 else 80)).
  { unfold outgoing_port. intros [-> | (p & -> & ->)]; reflexivity. }
  split; [|split; [|repeat split; reflexivity]].
  - destruct (port t) as [p|] eqn:Hp.
    + destruct (port_truthy p) eqn:Ht.
      * unfold outgoing_port. rewrite Hp, Ht. apply port_explicit; assumption.
      * rewrite Hdefault by (right; exists p; auto).
        assert (Hno : port t = None ∨ ∃ p, port t = Some p ∧ port_truthy p = false)
          by (right; exists p; auto).
        destruct (protocol t) as [s|] eqn:Hs; simpl.
        -- destruct (isSSL_matches s) eqn:E.
           ++ apply (port_tls t s); [exact Hno | exact Hs | apply isSSL_matches_true; exact E].
           ++ apply port_plain; [exact Hno|]. intros s' Hs'. assert (s' = s) as -> by congruence.
              apply not_true_iff_false in E. rewrite isSSL_matches_true in E. tauto.
        -- apply port_plain; [exact Hno | intros s' Hs'; congruence].
    + rewrite Hdefault by (left; reflexivity).
      assert (Hno : port t = None ∨ ∃ p, port t = Some p ∧ port_truthy p = false)
        by (left; exact Hp).
      destruct (protocol t) as [s|] eqn:Hs; simpl.
      * destruct (isSSL_matches s) eqn:E.
        -- apply (port_tls t s); [exact Hno | exact Hs | apply isSSL_matches_true; exact E].
        -- apply port_plain; [exact Hno|]. intros s' Hs'. assert (s' = s) as -> by congruence.
           apply not_true_iff_false in E. rewrite isSSL_matches_true in E. tauto.
      * apply port_plain; [exact Hno | intros s' Hs'; congruence].
  - intros p H. destruct H as [p Hp Ht | s Hno Hs Hm | Hno Hm].
    + unfold outgoing_port. rewrite Hp, Ht. reflexivity.
    + rewrite (Hdefault Hno), Hs. simpl.
      apply isSSL_matches_true in Hm. rewrite Hm. reflexivity.
    + rewrite (Hdefault Hno). destruct (protocol t) as [s|]; simpl; [|reflexivity].
      destruct (isSSL_matches s) eqn:E; [|reflexivity].
      apply isSSL_matches_true in E. destruct (Hm s eq_refl). tauto.
Qed.

End OutboundPort.

(** ** The default error listener *)

Section ErrorListener.

Import Common Server.

Lemma listeners_on (self : ProxyServer) (event : str) (fn : listener) :
  listeners (on self event fn) event = listeners self event ++ [fn].
Proof.
  unfold listeners at 1. unfold on. simpl.
  rewrite lookup_insert_eq. reflexivity.
Qed.

Lemma listeners_attach (fs : list (Error → outcome unit)) (self : ProxyServer) :
  listeners (attach fs self) (lit "error")
  = listeners self (lit "error") ++ map External fs.
Proof.
  revert self. induction fs as [|f fs IH]; intros self; simpl.
  - rewrite app_nil_r. reflexivity.
  - unfold attach in *. simpl. rewrite IH, listeners_on, <- app_assoc. reflexivity.
Qed.

Lemma listeners_new (opts : proxyOptions) :
  listeners (new opts) (lit "error") = [OwnOnError].
Proof. reflexivity. Qed.

Lemma call_all_external (self : ProxyServer) (fs : list (Error → outcome unit))
    (err : Error) :
  Forall (λ f, f err = Returned tt) fs →
  call_all self (map External fs) err = Returned tt.
Proof.
  induction 1 as [|f fs Hf _ IH]; simpl.
  - reflexivity.
  - rewrite Hf. exact IH.
Qed.

(** C7. On a server as the constructor leaves it, emitting "error"
    throws the error back at the emitter.  Once at least one listener
    has been attached from outside, the server's own handler stays
    quiet, so the emit returns as long as those listeners return. *)
Theorem default_listener_contract
    (opts : proxyOptions) (err : Error) (fs : list (Error → outcome unit)) :
  fs ≠ [] →
  Forall (λ f, f err = Returned tt) fs →
  emit (new opts) (lit "error") err = Thrown err
  ∧ onError (attach fs (new opts)) err = Returned tt
  ∧ emit (attach fs (new opts)) (lit "error") err = Returned true.
Proof.
  intros Hne Hret.
  assert (Hls : listeners (attach fs (new opts)) (lit "error")
                = OwnOnError :: map External fs)
    by (rewrite listeners_attach, listeners_new; reflexivity).
  assert (Hquiet : onError (attach fs (new opts)) err = Returned tt).
  { unfold onError. rewrite Hls. destruct fs; [contradiction | reflexivity]. }
  split; [reflexivity|]. split; [exact Hquiet|].
  unfold emit. rewrite Hls. cbn [call_all call]. rewrite Hquiet.
  rewrite call_all_external by exact Hret. reflexivity.
Qed.

Lemma default_listener_contract_witness :
  let err := lit "socket hang up" in
  let fs := [λ _ : Error, Returned tt] in
  emit (new no_options) (lit "error") err = Thrown err
  ∧ onError (attach fs (new no_options)) err = Returned tt
  ∧ emit (attach fs (new no_options)) (lit "error") err = Returned true.
Proof.
  intros err fs.
  apply (default_listener_contract no_options err fs).
  - discriminate.
  - repeat constructor.
Defined.

End ErrorListener.

(** ** The forwarded port *)

Section ForwardedPort.

Import Common WsIncoming.

Lemma take_digits_run (ds rest : str) :
  Forall (λ c, Js.is_digit c = true) ds →
  (∀ c r, rest = c :: r → Js.is_digit c = false) →
  take_digits (ds ++ rest) = ds.
Proof.
  intros Hds Hrest. induction Hds as [|d ds Hd _ IH]; simpl.
  - destruct rest as [|c r]; simpl; [reflexivity|].
    rewrite (Hrest c r eq_refl). reflexivity.
  - rewrite Hd, IH. reflexivity.
Qed.

Lemma take_digits_no_digit (pre : str) (tail : str) :
  no_colon_digit (":" :: pre) →
  take_digits (pre ++ ":" :: tail) = [].
Proof.
  intros H. destruct pre as [|d b]; simpl.
  - reflexivity.
  - rewrite (H [] d b eq_refl). reflexivity.
Qed.

Lemma no_colon_digit_tail (c : ascii) (s : str) :
  no_colon_digit (c :: s) → no_colon_digit s.
Proof. intros H a d b ->. apply (H (c :: a) d b). reflexivity. Qed.

Lemma match_port_first (h pre ds rest : str) :
  first_colon_digits h pre ds rest → match_port h = Some ds.
Proof.
  intros (-> & Hne & Hds & Hrest & Hpre).
  induction pre as [|c pre IH]; simpl.
  - rewrite (take_digits_run ds rest Hds Hrest).
    destruct ds; [contradiction | reflexivity].
  - specialize (IH (no_colon_digit_tail _ _ Hpre)).
    destruct (Ascii.eqb c ":") eqn:E; [|exact IH].
    apply ascii_eqb_true in E as ->.
    rewrite (take_digits_no_digit pre (ds ++ rest) Hpre). exact IH.
Qed.

Lemma match_port_none (h : str) : no_colon_digit h → match_port h = None.
Proof.
  induction h as [|c h IH]; intros H; simpl; [reflexivity|].
  specialize (IH (no_colon_digit_tail _ _ H)).
  destruct (Ascii.eqb c ":") eqn:E; [|exact IH].
  apply ascii_eqb_true in E as ->.
  destruct h as [|d b]; [reflexivity|]. simpl.
  rewrite (H [] d b eq_refl). exact IH.
Qed.

Lemma xHeaders_port (req : IncomingMessage) (options : proxyOptions) :
  xfwd options = true →
  req_headers (xHeaders req options) !! lit "x-forwarded-port"
  = Some (appended (req_headers req !! lit "x-forwarded-port") (getPort req)).
Proof.
  intros Hx. unfold xHeaders. rewrite Hx. cbn [negb req_headers fold_left].
  unfold forward_header.
  rewrite lookup_insert_ne by discriminate.
  change (lit "x-forwarded-" ++ lit "port") with (lit "x-forwarded-port").
  rewrite lookup_insert_eq.
  rewrite lookup_insert_ne by discriminate.
  destruct (req_headers req !! lit "x-forwarded-port") as [[|c o]|]; reflexivity.
Qed.

(** C10. [getPort] answers the digits behind the first colon of the
    [Host] header that has a digit right behind it; for "[::1]:8080"
    that is "1".  Without a [Host] header, or when no colon of it is
    followed by a digit, the answer is "443" on an encrypted connection
    and "80" otherwise.  With [xfwd] set, the [xHeaders] pass appends
    this answer to [x-forwarded-port]. *)
Theorem getPort_reads_first_colon_digits (req : IncomingMessage) :
  (∀ h pre ds rest,
     req_headers req !! lit "host" = Some h →
     first_colon_digits h pre ds rest →
     getPort req = ds)
  ∧ (req_headers req !! lit "host" = Some (lit "[::1]:8080") →
     getPort req = lit "1")
  ∧ ((req_headers req !! lit "host" = None
      ∨ ∃ h, req_headers req !! lit "host" = Some h ∧ no_colon_digit h) →
     getPort req = if hasEncryptedConnection req then lit "443" else lit "80")
  ∧ (∀ options, xfwd options = true →
     req_headers (xHeaders req options) !! lit "x-forwarded-port"
     = Some (appended (req_headers req !! lit "x-forwarded-port") (getPort req))).
Proof.
  split; [|split; [|split]].
  - intros h pre ds rest Hh Hocc. unfold getPort. rewrite Hh.
    rewrite (match_port_first _ _ _ _ Hocc).
    destruct Hocc as (-> & _). destruct pre; reflexivity.
  - intros Hh. unfold getPort. rewrite Hh. reflexivity.
  - intros [Hh | (h & Hh & Hno)]; unfold getPort; rewrite Hh; [reflexivity|].
    rewrite (match_port_none h Hno). destruct (Js.truthy h); reflexivity.
  - intros options. apply xHeaders_port.
Qed.

Lemma getPort_reads_first_colon_digits_witness :
  getPort ipv6_request = lit "1"
  ∧ req_headers (xHeaders ipv6_request
                   {| target := None; forward := None; opt_method := None;
                      opt_headers := None; auth := None; opt_ca := None;
                      secure := None; httpAgent := None; httpsAgent := None;
                      localAddress := None; prependPath := None;
                      toProxy := false; ignorePath := false;
                      changeOrigin := false; xfwd := true |})
      !! lit "x-forwarded-port"
    = Some (lit "443,1").
Proof.
  destruct (getPort_reads_first_colon_digits ipv6_request) as (H1 & _ & _ & H4).
  split.
  - apply (H1 (lit "[::1]:8080") (lit "[:") (lit "1") (lit "]:8080")).
    + reflexivity.
    + split; [reflexivity|]. split; [discriminate|].
      split; [repeat constructor|].
      split; [intros c r [= <- _]; reflexivity|].
      intros a d b H.
      destruct a as [|x [|y [|z a]]]; simpl in H; discriminate H.
  - rewrite H4 by reflexivity. vm_compute. reflexivity.
Defined.

End ForwardedPort.

(** ** The upgrade handshake *)

Section Handshake.

Import Common WsIncoming.

Lemma join_cons (sep x : str) (l : list str) :
  Js.join sep (x :: l) = x ++ (l ≫= λ y, sep ++ y).
Proof.
  revert x. induction l as [|y l IH]; intros x.
  - simpl. rewrite app_nil_r. reflexivity.
  - change (Js.join sep (x :: y :: l)) with (x ++ sep ++ Js.join sep (y :: l)).
    rewrite IH. cbn [mbind list_bind]. rewrite <- app_assoc. reflexivity.
Qed.

Lemma shift_separator (sep : str) (l : list str) :
  (l ≫= λ y, sep ++ y) ++ sep = sep ++ (l ≫= λ y, y ++ sep).
Proof.
  induction l as [|y l IH]; cbn [mbind list_bind].
  - rewrite app_nil_r. reflexivity.
  - rewrite <- !app_assoc, IH. reflexivity.
Qed.

Lemma push_array (key : str) (l : list str) (header : list str) :
  fold_left (λ header v, header ++ [key ++ lit ": " ++ v]) l header
  = header ++ ((λ v, key ++ lit ": " ++ v) <$> l).
Proof.
  revert header. induction l as [|v l IH]; intros header; simpl.
  - rewrite app_nil_r. reflexivity.
  - rewrite IH, <- app_assoc. reflexivity.
Qed.

Lemma reduce_headers (headers : list (str * hval)) (header : list str) :
  fold_left
    (λ header '(key, value),
       match value with
       | HArr l =>
           fold_left (λ header v, header ++ [key ++ lit ": " ++ v]) l header
       | _ => header ++ [key ++ lit ": " ++ hval_to_string value]
       end)
    headers header
  = header ++ header_lines headers.
Proof.
  revert header. induction headers as [|[key value] headers IH]; intros header.
  - simpl. rewrite app_nil_r. reflexivity.
  - cbn [fold_left]. rewrite IH.
    destruct value; rewrite ?push_array, <- app_assoc; reflexivity.
Qed.

Lemma createHttpHeader_lines (line : str) (headers : list (str * hval)) :
  createHttpHeader line headers
  = line ++ cr_lf ++ (header_lines (Object_keys headers) ≫= λ l, l ++ cr_lf)
    ++ cr_lf.
Proof.
  unfold createHttpHeader.
  rewrite reduce_headers.
  change ([line] ++ header_lines (Object_keys headers))
    with (line :: header_lines (Object_keys headers)).
  rewrite join_cons, <- app_assoc.
  rewrite (app_assoc _ CRLF CRLF), shift_separator, <- app_assoc. reflexivity.
Qed.

Lemma array_index_spec (k : str) (n : N) :
  array_index k = Some n ↔ index_name k n.
Proof.
  unfold array_index, index_name. split.
  - destruct (NilEmpty.uint_of_string (string_of_list_ascii k)) as [d|];
      [|discriminate].
    cbv zeta.
    destruct (N.of_uint d <? 4294967295)%N eqn:Hlt; [|discriminate].
    cbn [andb]. case_bool_decide as Hk; [|discriminate].
    intros [= <-]. apply N.ltb_lt in Hlt. auto.
  - intros [Hlt ->]. unfold Js.of_N, lit.
    rewrite string_of_list_ascii_of_string, NilEmpty.usu.
    cbv zeta. rewrite DecimalN.Unsigned.of_to.
    apply N.ltb_lt in Hlt. rewrite Hlt. cbn [andb].
    rewrite bool_decide_true by reflexivity. reflexivity.
Qed.

Lemma array_index_None (k : str) :
  array_index k = None ↔ ∀ n, ¬ index_name k n.
Proof.
  split.
  - intros H n Hn. apply array_index_spec in Hn. congruence.
  - intros H. destruct (array_index k) as [n|] eqn:E; [|reflexivity].
    destruct (H n). apply array_index_spec. exact E.
Qed.

Lemma insert_index_perm (n : N) (e : str * hval) (l : list (N * (str * hval))) :
  insert_index n e l ≡ₚ (n, e) :: l.
Proof.
  induction l as [|[m e'] l IH]; simpl; [reflexivity|].
  destruct (n <=? m)%N; [reflexivity|].
  rewrite IH. apply Permutation_swap.
Qed.

Lemma insert_index_sorted (n : N) (e : str * hval) (l : list (N * (str * hval))) :
  StronglySorted (λ x y, (x.1 ≤ y.1)%N) l →
  StronglySorted (λ x y, (x.1 ≤ y.1)%N) (insert_index n e l).
Proof.
  induction 1 as [|[m e'] l Hs IH Hall]; simpl.
  - repeat constructor.
  - destruct (n <=? m)%N eqn:Hle.
    + apply N.leb_le in Hle. constructor.
      * constructor; assumption.
      * constructor; [exact Hle|].
        eapply Forall_impl; [exact Hall|]. simpl. intros x Hx. cbn in *. lia.
    + apply N.leb_gt in Hle. constructor; [exact IH|].
      rewrite insert_index_perm. constructor; [simpl; lia | exact Hall].
Qed.

Lemma index_properties_sorted (headers : list (str * hval)) :
  StronglySorted (λ x y, (x.1 ≤ y.1)%N) (index_properties headers).
Proof.
  induction headers as [|e headers IH]; simpl; [constructor|].
  destruct (array_index e.1); [apply insert_index_sorted|]; exact IH.
Qed.

Lemma index_properties_indexed (headers : list (str * hval)) :
  Forall (λ x, array_index x.2.1 = Some x.1) (index_properties headers).
Proof.
  induction headers as [|e headers IH]; simpl; [constructor|].
  destruct (array_index e.1) as [n|] eqn:E; [|exact IH].
  rewrite insert_index_perm. constructor; assumption.
Qed.

Lemma Object_keys_perm (headers : list (str * hval)) :
  Object_keys headers ≡ₚ headers.
Proof.
  unfold Object_keys. induction headers as [|e headers IH]; [reflexivity|].
  cbn [index_properties]. rewrite filter_cons.
  destruct (array_index e.1) as [n|] eqn:E.
  - rewrite decide_False by discriminate.
    rewrite insert_index_perm. cbn [fmap list_fmap snd app].
    constructor. exact IH.
  - rewrite decide_True by reflexivity.
    rewrite <- Permutation_middle. constructor. exact IH.
Qed.

Lemma Object_keys_order (headers : list (str * hval)) :
  own_property_order headers (Object_keys headers).
Proof.
  exists (snd <$> index_properties headers),
         (filter (λ e, array_index e.1 = None) headers).
  split; [reflexivity|]. split; [apply Object_keys_perm|].
  split; [apply sublist_filter|]. split; [|split].
  - apply Forall_forall. intros e He.
    apply list_elem_of_filter in He as [He _]. apply array_index_None, He.
  - apply Forall_fmap. eapply Forall_impl; [apply index_properties_indexed|].
    intros [n e] Hn. exists n. apply array_index_spec, Hn.
  - pose proof (index_properties_indexed headers) as Hall.
    pose proof (index_properties_sorted headers) as Hs.
    induction Hs as [|[n e] l Hs IH Hle]; [constructor|].
    apply Forall_cons in Hall as [Hn Hall].
    cbn [fmap list_fmap snd]. constructor; [apply IH, Hall|].
    apply Forall_fmap. rewrite Forall_forall in Hle, Hall |- *.
    intros [m e'] Hin. exists n, m.
    split; [apply array_index_spec, Hn|].
    split; [apply array_index_spec, (Hall _ Hin) | apply (Hle _ Hin)].
Qed.

Lemma Object_keys_plain (headers : list (str * hval)) :
  Forall (λ e, ∀ n, ¬ index_name e.1 n) headers →
  Object_keys headers = headers.
Proof.
  intros Hplain. unfold Object_keys.
  assert (index_properties headers = []) as ->.
  { induction Hplain as [|e headers He _ IH]; [reflexivity|].
    apply array_index_None in He. cbn [index_properties]. rewrite He. exact IH. }
  cbn [fmap list_fmap app].
  induction Hplain as [|e headers He _ IH]; [reflexivity|].
  apply array_index_None in He.
  rewrite filter_cons, decide_True by exact He. f_equal. exact IH.
Qed.

Lemma written_on_upgrade (upstreamRes : upstream_response) (proxyHead : str) :
  written_before_splice Client (on_upgrade upstreamRes proxyHead)
  = [switching_protocols (Object_keys (res_headers upstreamRes))].
Proof.
  unfold on_upgrade. rewrite createHttpHeader_lines.
  destruct (Js.truthy proxyHead); reflexivity.
Qed.

(** C5, as the claim states it, fails: the upstream presents [upgrade]
    and then a header named [7]; the handler writes the line of [7]
    first, which is not the block in the order presented. *)
Lemma upgrade_headers_leave_presented_order :
  written_before_splice Client (on_upgrade index_named_response [])
  = [ lit "HTTP/1.1 101 Switching Protocols" ++ ["013"; "010"]
      ++ lit "7: x" ++ ["013"; "010"]
      ++ lit "upgrade: websocket" ++ ["013"; "010"]
      ++ ["013"; "010"] ]
  ∧ written_before_splice Client (on_upgrade index_named_response [])
    ≠ [switching_protocols (res_headers index_named_response)].
Proof. split; [vm_compute; reflexivity | vm_compute; discriminate]. Qed.

(** C5, amended. On an upstream upgrade the handler writes one chunk to
    the client socket before it splices the two sockets.  The chunk
    starts with the line "HTTP/1.1 101 Switching Protocols" and CR LF
    and ends in CR LF CR LF; between them come the upstream headers as
    "Key: Value" lines, each closed by CR LF, one line per element for
    an array value, in the order in which the header object gives out
    its names: names that are array indices first, by ascending index,
    then all others in the order the upstream presented them.  When no
    header name is an array index that is the order presented.  The
    last part spells the bytes out for one response. *)
Theorem upgrade_writes_switching_protocols
    (upstreamRes : upstream_response) (proxyHead : str) :
  (∃ chunk enumerated,
     written_before_splice Client (on_upgrade upstreamRes proxyHead) = [chunk]
     ∧ own_property_order (res_headers upstreamRes) enumerated
     ∧ chunk = switching_protocols enumerated
     ∧ (lit "HTTP/1.1 101 Switching Protocols" ++ ["013"; "010"])
         `prefix_of` chunk
     ∧ ["013"; "010"; "013"; "010"] `suffix_of` chunk)
  ∧ (Forall (λ e, ∀ n, ¬ index_name e.1 n) (res_headers upstreamRes) →
     written_before_splice Client (on_upgrade upstreamRes proxyHead)
     = [switching_protocols (res_headers upstreamRes)])
  ∧ written_before_splice Client (on_upgrade mixed_response proxyHead)
    = [ lit "HTTP/1.1 101 Switching Protocols" ++ ["013"; "010"]
        ++ lit "9: a" ++ ["013"; "010"]
        ++ lit "10: b" ++ ["013"; "010"]
        ++ lit "upgrade: websocket" ++ ["013"; "010"]
        ++ lit "set-cookie: a=1" ++ ["013"; "010"]
        ++ lit "set-cookie: b=2" ++ ["013"; "010"]
        ++ ["013"; "010"] ].
Proof.
  split; [|split].
  - exists (switching_protocols (Object_keys (res_headers upstreamRes))),
           (Object_keys (res_headers upstreamRes)).
    split; [apply written_on_upgrade|].
    split; [apply Object_keys_order|]. split; [reflexivity|].
    unfold switching_protocols. split.
    + rewrite app_assoc. apply prefix_app_r. reflexivity.
    + rewrite (app_assoc cr_lf _ cr_lf), <- shift_separator.
      exists (lit "HTTP/1.1 101 Switching Protocols"
              ++ (header_lines (Object_keys (res_headers upstreamRes))
                    ≫= λ y, cr_lf ++ y)).
      rewrite <- !app_assoc. reflexivity.
  - intros Hplain. rewrite written_on_upgrade, (Object_keys_plain _ Hplain).
    reflexivity.
  - rewrite written_on_upgrade. vm_compute. reflexivity.
Qed.

End Handshake.

(** ** The [Host] header under [changeOrigin] *)

Section HostHeader.

Import Common.

Variable requiresPort : port_value → str → bool.
Variable url_parse_path : str → option (option str).

Lemma urlJoin_two (a b : str) : ∃ r, urlJoin [a; b] = Some r.
Proof. unfold urlJoin. simpl. eexists. reflexivity. Qed.

Lemma hasPort_true (h : str) : hasPort h = true ↔ ":" ∈ h.
Proof. apply includes_char. Qed.

Lemma app_port_neq (h p : str) : h ++ [":"] ++ p ≠ h.
Proof.
  intros H. apply (f_equal length) in H.
  rewrite !length_app in H. simpl in H. lia.
Qed.

Lemma setupOutgoing_url_raise
    (outgoing : RequestOptions) (options : proxyOptions) (req : IncomingMessage)
    (w : which) :
  toProxy options = false →
  url_parse_path (req_url req) = None →
  setupOutgoing requiresPort url_parse_path outgoing options req w = None.
Proof.
  intros Hto Hurl. unfold setupOutgoing. rewrite Hto, Hurl.
  destruct (selected options w); reflexivity.
Qed.

(** C3. With [changeOrigin] set and a chosen URL record that has a
    protocol and a host, [setupOutgoing] returns unless [url.parse]
    raises on the request URL (which it is handed when [toProxy] is
    off).  When it returns, the outbound [Host] header is the host
    followed by ":" and the outbound port exactly when the
    well-known-port test asks for the port and the host holds no ":";
    in every other case it is the host alone. *)
Theorem changeOrigin_host_header
    (outgoing : RequestOptions) (options : proxyOptions) (req : IncomingMessage)
    (w : which) (t : UrlObject) (h proto : str) :
  changeOrigin options = true →
  selected options w = Some t →
  host t = Some h →
  protocol t = Some proto →
  (toProxy options = false
   ∧ url_parse_path (req_url req) = None
   ∧ setupOutgoing requiresPort url_parse_path outgoing options req w = None)
  ∨ ∃ out,
      setupOutgoing requiresPort url_parse_path outgoing options req w = Some out
      ∧ o_port out = Some (outgoing_port t)
      ∧ o_host out = Some h
      ∧ (o_headers out !! lit "host"
           = Some (HStr (h ++ [":"] ++ port_to_string (outgoing_port t)))
         ↔ requiresPort (outgoing_port t) proto = true ∧ ":" ∉ h)
      ∧ (¬ (requiresPort (outgoing_port t) proto = true ∧ ":" ∉ h)
         → o_headers out !! lit "host" = Some (HStr h)).
Proof.
  intros Hco Hsel Hhost Hproto.
  destruct (negb (toProxy options)) eqn:Hto;
    [destruct (url_parse_path (req_url req)) as [p|] eqn:Hurl|].
  2:{ left. apply negb_true_iff in Hto.
      split; [exact Hto|]. split; [reflexivity|].
      apply setupOutgoing_url_raise; assumption. }
  all: right; unfold setupOutgoing; rewrite Hsel, Hco, Hto, ?Hurl;
    cbn [fmap option_fmap option_map];
    match goal with
    | |- context [urlJoin [?a; ?b]] => destruct (urlJoin_two a b) as [r ->]
    end;
    unfold origin_host; rewrite Hproto, Hhost;
    destruct (requiresPort (outgoing_port t) proto) eqn:Hreq.
  all: try (destruct (hasPort h) eqn:Hhas; simpl;
            [apply hasPort_true in Hhas
            |apply not_true_iff_false in Hhas; rewrite hasPort_true in Hhas]).
  all: eexists; (split; [reflexivity|]); simpl; rewrite lookup_insert_eq;
    (split; [reflexivity|]); (split; [reflexivity|]); split;
    try tauto; try reflexivity.
  all: split; [|tauto || (intros [[=] _])]; intros [= H]; symmetry in H;
    destruct (app_port_neq _ _ H).
Qed.

End HostHeader.

Lemma changeOrigin_host_header_witness :
  ∃ out,
    Common.setupOutgoing well_known_port_test (λ u, Some (Some u))
      blank_request_options change_origin_options ipv6_request Common.Target
    = Some out
    ∧ Common.o_headers out !! lit "host" = Some (Common.HStr (lit "upstream:8080")).
Proof.
  destruct (changeOrigin_host_header well_known_port_test (λ u, Some (Some u))
              blank_request_options change_origin_options ipv6_request
              Common.Target upstream_8080 (lit "upstream") (lit "http:")
              eq_refl eq_refl eq_refl eq_refl)
    as [(_ & Hraise & _) | (out & Hout & _ & _ & Hiff & _)]; [discriminate Hraise|].
  exists out. split; [exact Hout|].
  apply Hiff. split; [reflexivity|].
  apply (bool_decide_eq_false_1 (":" ∈ lit "upstream")). reflexivity.
Defined.

(** ** Cookie rewriting *)

Section Cookies.

Import Common.

Variable property : str.

Lemma strip_prefix_ci_Some (s t : str) :
  Js.strip_prefix_ci property s = Some t →
  ∃ name, s = name ++ t ∧ same_ci property name
          ∧ take (length property) s = name.
Proof.
  unfold same_ci. generalize property as p. intros p. revert s.
  induction p as [|a p IH]; intros s; simpl.
  - intros [= ->]. exists []. split; [reflexivity|]. split; [constructor | apply take_0].
  - destruct s as [|b s]; [discriminate|].
    destruct (Js.eq_ci a b) eqn:E; [|discriminate].
    intros H. destruct (IH s H) as (name & -> & Hci & Htake).
    exists (b :: name). split; [reflexivity|]. split; [constructor; assumption|].
    simpl. rewrite Htake. reflexivity.
Qed.

Lemma strip_prefix_ci_complete (name t : str) :
  same_ci property name → Js.strip_prefix_ci property (name ++ t) = Some t.
Proof.
  unfold same_ci. induction 1 as [|a b p name Hab _ IH]; simpl.
  - destruct t; reflexivity.
  - rewrite Hab. exact IH.
Qed.

Lemma span_value_spec (s v rest : str) :
  span_value s = (v, rest) →
  s = v ++ rest ∧ (";" ∉ v) ∧ (∀ c r, rest = c :: r → c = ";").
Proof.
  revert v rest. induction s as [|c s IH]; intros v rest; simpl.
  - intros [= <- <-]. split; [reflexivity|]. split; [apply not_elem_of_nil | discriminate].
  - destruct (Ascii.eqb c ";") eqn:E.
    + apply ascii_eqb_true in E as ->. intros [= <- <-].
      split; [reflexivity|]. split; [apply not_elem_of_nil|].
      intros c r [= <- _]. reflexivity.
    + apply ascii_eqb_false in E.
      destruct (span_value s) as [v' rest'] eqn:Hs. intros [= <- <-].
      destruct (IH v' rest' eq_refl) as (-> & Hv & Hrest).
      split; [reflexivity|]. split; [|exact Hrest].
      rewrite not_elem_of_cons. split; [congruence | exact Hv].
Qed.

Lemma span_value_nonempty (c : ascii) (s : str) :
  c ≠ ";" → ∃ v rest, span_value (c :: s) = (c :: v, rest).
Proof.
  intros Hc. simpl. apply ascii_eqb_false in Hc. rewrite Hc.
  destruct (span_value s) as [v rest]. eauto.
Qed.

Lemma match_attribute_sound (s p v rest : str) :
  match_attribute property s = Some (p, v, rest) →
  s = p ++ v ++ rest
  ∧ (∃ name, p = name ++ ["="] ∧ same_ci property name)
  ∧ v ≠ [] ∧ (";" ∉ v) ∧ (∀ c r, rest = c :: r → c = ";").
Proof.
  unfold match_attribute.
  destruct (Js.strip_prefix_ci property s) as [[|c s']|] eqn:Hp; try discriminate.
  destruct (Ascii.eqb c "=") eqn:E; [|discriminate].
  apply ascii_eqb_true in E as ->.
  destruct (strip_prefix_ci_Some _ _ Hp) as (name & Hs & Hci & Htake).
  destruct (span_value s') as [[|d v'] rest'] eqn:Hv; [discriminate|].
  intros [= <- <- <-].
  destruct (span_value_spec _ _ _ Hv) as (-> & Hno & Hrest).
  rewrite Htake. split; [rewrite Hs, <- app_assoc; reflexivity|].
  split; [exists name; auto|]. split; [discriminate|]. split; assumption.
Qed.

Lemma match_attribute_complete (name v rest : str) (c : ascii) :
  same_ci property name → c ≠ ";" →
  ∃ m, match_attribute property (name ++ "=" :: c :: v ++ rest) = Some m.
Proof.
  intros Hci Hc. unfold match_attribute.
  rewrite (strip_prefix_ci_complete _ _ Hci). simpl Ascii.eqb. cbv iota.
  destruct (span_value_nonempty c (v ++ rest) Hc) as (v' & rest' & ->).
  eexists. reflexivity.
Qed.

Lemma match_spaces_attribute_sound (s p v rest : str) :
  match_spaces_attribute property s = Some (p, v, rest) →
  s = p ++ v ++ rest
  ∧ (∃ ws name, p = ws ++ name ++ ["="]
                ∧ Forall (λ c, Js.is_space c = true) ws
                ∧ same_ci property name)
  ∧ v ≠ [] ∧ (";" ∉ v) ∧ (∀ c r, rest = c :: r → c = ";").
Proof.
  assert (Hbase : ∀ s p, match_attribute property s = Some (p, v, rest) →
    s = p ++ v ++ rest
    ∧ (∃ ws name, p = ws ++ name ++ ["="]
                  ∧ Forall (λ c, Js.is_space c = true) ws
                  ∧ same_ci property name)
    ∧ v ≠ [] ∧ (";" ∉ v) ∧ (∀ c r, rest = c :: r → c = ";")).
  { intros s0 p0 H.
    destruct (match_attribute_sound _ _ _ _ H) as (Hs & (name & Hp & Hci) & Hrest).
    split; [exact Hs|]. split; [|exact Hrest].
    exists [], name. split; [exact Hp|]. split; [constructor | exact Hci]. }
  revert p. induction s as [|c s IH]; intros p.
  - simpl. apply Hbase.
  - cbn [match_spaces_attribute].
    destruct (Js.is_space c) eqn:Hc; [|apply Hbase].
    destruct (match_spaces_attribute property s) as [[[p' v'] rest']|] eqn:Hrec;
      [|apply Hbase].
    intros [= <- <- <-].
    destruct (IH p' eq_refl) as (-> & (ws & name & -> & Hws & Hci) & Hrest).
    split; [reflexivity|]. split; [|exact Hrest].
    exists (c :: ws), name. split; [reflexivity|]. split; [constructor; assumption | exact Hci].
Qed.

Lemma match_spaces_attribute_complete (ws name v rest : str) (c : ascii) :
  Forall (λ c, Js.is_space c = true) ws →
  same_ci property name → c ≠ ";" →
  ∃ m, match_spaces_attribute property (ws ++ name ++ "=" :: c :: v ++ rest) = Some m.
Proof.
  intros Hws Hci Hc.
  assert (Hhere : ∀ s m, match_attribute property s = Some m →
                         ∃ m', match_spaces_attribute property s = Some m').
  { intros s m H. destruct s as [|d s]; simpl; [eauto|].
    destruct (Js.is_space d); [|eauto].
    destruct (match_spaces_attribute property s) as [[[? ?] ?]|]; eauto. }
  induction Hws as [|d ws Hd _ IH].
  - destruct (match_attribute_complete name v rest c Hci Hc) as [m Hm].
    exact (Hhere _ _ Hm).
  - destruct IH as [[[p' v'] rest'] Hm]. cbn [app match_spaces_attribute].
    rewrite Hd, Hm. eauto.
Qed.

Lemma find_attribute_sound (header pre p v rest : str) :
  find_attribute property header = Some (pre, p, v, rest) →
  attribute_at property header pre p v rest.
Proof.
  revert pre. induction header as [|c header IH]; intros pre; [discriminate|].
  cbn [find_attribute].
  destruct (if Ascii.eqb c ";" then match_spaces_attribute property header else None)
    as [[[p' v'] rest']|] eqn:Hm.
  - intros [= <- <- <- <-].
    destruct (Ascii.eqb c ";") eqn:E; [|discriminate].
    apply ascii_eqb_true in E as ->.
    destruct (match_spaces_attribute_sound _ _ _ _ Hm)
      as (-> & (ws & name & -> & Hws & Hci) & Hrest).
    split; [reflexivity|]. split; [|exact Hrest].
    exists ws, name. auto.
  - destruct (find_attribute property header) as [[[[pre' p'] v'] rest']|];
      [|discriminate].
    intros [= <- <- <- <-].
    destruct (IH pre' eq_refl) as (-> & Hrest).
    split; [reflexivity | exact Hrest].
Qed.

Lemma find_attribute_leftmost (header pre p v rest : str) :
  attribute_at property header pre p v rest →
  ∃ pre' p' v' rest',
    find_attribute property header = Some (pre', p', v', rest')
    ∧ length pre' ≤ length pre.
Proof.
  intros (-> & (ws & name & -> & Hws & Hci) & Hv & Hno & _).
  destruct v as [|c v]; [contradiction|].
  apply not_elem_of_cons in Hno as [Hc _].
  remember ((";" :: ws ++ name ++ ["="]) ++ (c :: v) ++ rest) as tail eqn:Htail.
  assert (Htail' : tail = ";" :: (ws ++ name ++ "=" :: c :: v ++ rest))
    by (subst tail; simpl; rewrite <- !app_assoc; reflexivity).
  clear Htail.
  induction pre as [|d pre IH].
  - rewrite Htail'. cbn [app find_attribute]. simpl Ascii.eqb. cbv iota.
    destruct (match_spaces_attribute_complete ws name v rest c Hws Hci)
      as [[[p' v'] rest'] ->]; [congruence|].
    do 4 eexists. split; reflexivity.
  - change ((d :: pre) ++ tail) with (d :: (pre ++ tail)).
    cbn [find_attribute].
    destruct (if Ascii.eqb d ";" then _ else None) as [[[p' v'] rest']|].
    + do 4 eexists. split; [reflexivity | simpl; lia].
    + destruct IH as (pre' & p' & v' & rest' & -> & Hle).
      do 4 eexists. split; [reflexivity | simpl; lia].
Qed.

Lemma get_in_own (config : cookie_config) (k : str) :
  inherited config !! k = None → get_in config k = own config !! k.
Proof.
  intros H. unfold get_in. rewrite H. destruct (own config !! k); reflexivity.
Qed.

(** Away from inherited names the replacer follows the table of own
    properties. *)
Lemma replacer_spec (config : cookie_config) (p v : str) :
  inherited config !! v = None →
  inherited config !! lit "*" = None →
  replacement (own config) p v (replacer config p v).
Proof.
  intros Hiv His. unfold replacer. rewrite !get_in_own by assumption.
  destruct (own config !! v) as [[[|c r]|]|] eqn:Hv.
  - apply remove_mapped. right. exact Hv.
  - apply replace_mapped; [exact Hv | discriminate].
  - apply remove_mapped. left. exact Hv.
  - destruct (own config !! lit "*") as [[[|c r]|]|] eqn:Hs.
    + apply remove_fallback; [exact Hv | right; exact Hs].
    + apply replace_fallback; [exact Hv | exact Hs | discriminate].
    + apply remove_fallback; [exact Hv | left; exact Hs].
    + apply keep_unmatched; assumption.
Qed.

(** On an inherited name that no own property shadows, the replacer
    writes the text of the inherited member. *)
Lemma replacer_inherited (config : cookie_config) (p v txt : str) :
  own config !! v = None →
  inherited config !! v = Some txt →
  replacer config p v = if Js.truthy txt then p ++ txt else [].
Proof.
  intros Ho Hi. unfold replacer, get_in. rewrite Ho, Hi. reflexivity.
Qed.

(** Whatever the table, the replacer keeps the prefix or removes the
    whole match. *)
Lemma replacer_shape (config : cookie_config) (p v : str) :
  replacer config p v = [] ∨ ∃ r, replacer config p v = p ++ r.
Proof.
  unfold replacer.
  destruct (match get_in config v with
            | Some v0 => Some v0
            | None => get_in config (lit "*")
            end) as [w|]; [|right; eauto].
  destruct (value_truthy w); [right; eauto | left; reflexivity].
Qed.

(** On a single header value, either the value holds a match of
    [/(;\s*<property>=)([^;]+)/i] and the leftmost one is replaced, or it
    holds no match and comes back unchanged; an array of values is
    rewritten element by element.  When neither the matched value nor
    "*" is an inherited name, the replacement is what the table of own
    properties says: the mapped value if the value is a key, else the
    value under "*" if that key exists, the match being removed when the
    replacement is null or empty, and kept as it is when neither key
    exists. *)
Lemma rewriteCookieProperty_on_own_keys (config : cookie_config) :
  plain_name property →
  (∀ header,
     (∃ pre p v rest,
        attribute_at property header pre p v rest
        ∧ (∀ pre' p' v' rest',
             attribute_at property header pre' p' v' rest' →
             length pre ≤ length pre')
        ∧ rewriteCookieProperty (Single header) config property
          = Single (pre ++ replacer config p v ++ rest)
        ∧ (inherited config !! v = None →
           inherited config !! lit "*" = None →
           replacement (own config) p v (replacer config p v)))
     ∨ ((¬ ∃ pre p v rest, attribute_at property header pre p v rest)
        ∧ rewriteCookieProperty (Single header) config property = Single header))
  ∧ (∀ headers,
       ∃ headers',
         rewriteCookieProperty (Multi headers) config property = Multi headers'
         ∧ Forall2 (λ h h', rewriteCookieProperty (Single h) config property = Single h')
             headers headers').
Proof.
  intros _. split.
  - intros header. unfold rewriteCookieProperty, rewrite_cookie_string.
    destruct (find_attribute property header) as [[[[pre p] v] rest]|] eqn:Hfind.
    + left. exists pre, p, v, rest.
      split; [apply find_attribute_sound; exact Hfind|].
      split; [|split; [reflexivity | apply replacer_spec]].
      intros pre' p' v' rest' Hat.
      destruct (find_attribute_leftmost _ _ _ _ _ Hat) as (? & ? & ? & ? & Hf & Hle).
      rewrite Hfind in Hf. injection Hf as <- <- <- <-. exact Hle.
    + right. split; [|reflexivity].
      intros (pre & p & v & rest & Hat).
      destruct (find_attribute_leftmost _ _ _ _ _ Hat) as (? & ? & ? & ? & Hf & _).
      congruence.
  - intros headers. eexists. split; [reflexivity|].
    induction headers as [|h headers IH]; constructor; [reflexivity | exact IH].
Qed.

End Cookies.

(** C8. The table is consulted with [in], which also answers for the
    names an object literal inherits from [Object.prototype].  So a
    cookie whose domain is such a name is rewritten by a table that has
    no such key: with an empty table, where the header should come back
    unchanged, the domain becomes the text of the inherited function;
    with a table whose only key is "*", where the attribute should be
    removed or the fallback written, the inherited function wins over
    the fallback.  A table without a prototype leaves the header as the
    mapping says, and so does an object literal on a value that is no
    inherited name. *)
Theorem rewriteCookieProperty_inherited_names :
  Common.rewriteCookieProperty
    (Common.Single (lit "sid=1; Domain=toString"))
    (Common.object_literal ∅) (lit "domain")
  = Common.Single (lit "sid=1; Domain=function toString() { [native code] }")
  ∧ Common.rewriteCookieProperty
      (Common.Single (lit "sid=1; Domain=constructor; Path=/"))
      (Common.object_literal {[ lit "*" := None ]}) (lit "domain")
    = Common.Single
        (lit "sid=1; Domain=function Object() { [native code] }; Path=/")
  ∧ Common.rewriteCookieProperty
      (Common.Single (lit "sid=1; Domain=valueOf"))
      (Common.object_literal {[ lit "*" := Some (lit "new.example") ]})
      (lit "domain")
    = Common.Single (lit "sid=1; Domain=function valueOf() { [native code] }")
  ∧ Common.rewriteCookieProperty
      (Common.Single (lit "sid=1; Domain=toString"))
      (Common.bare_object ∅) (lit "domain")
    = Common.Single (lit "sid=1; Domain=toString")
  ∧ Common.rewriteCookieProperty
      (Common.Single (lit "sid=1; Domain=old.example"))
      (Common.object_literal ∅) (lit "domain")
    = Common.Single (lit "sid=1; Domain=old.example").
Proof. repeat split; vm_compute; reflexivity. Qed.

(** A [Set-Cookie] value seen through the table
    [{"old.example": "new.example", "*": null}]. *)
Example rewriteCookieProperty_domain :
  let config : Common.cookie_config :=
    Common.object_literal
      {[ lit "old.example" := Some (lit "new.example"); lit "*" := None ]} in
  Common.rewriteCookieProperty
    (Common.Multi [ lit "sid=1; Domain=old.example; Path=/";
                    lit "lang=en; domain=else.example; Secure";
                    lit "theme=dark" ])
    config (lit "domain")
  = Common.Multi [ lit "sid=1; Domain=new.example; Path=/";
                   lit "lang=en; Secure";
                   lit "theme=dark" ].
Proof. vm_compute. reflexivity. Qed.

(** ** Joining paths *)

Section UrlJoin.

Import Common.

Lemma before_from_query (s : str) : s = before_query s ++ from_query s.
Proof.
  induction s as [|c s IH]; simpl; [reflexivity|].
  destruct (Ascii.eqb c "?"); [reflexivity|]. simpl. f_equal. exact IH.
Qed.

Lemma before_query_no_mark (s : str) : "?" ∉ before_query s.
Proof.
  induction s as [|c s IH]; simpl; [apply not_elem_of_nil|].
  destruct (Ascii.eqb c "?") eqn:E; [apply not_elem_of_nil|].
  apply ascii_eqb_false in E. rewrite not_elem_of_cons. split; [congruence | exact IH].
Qed.

Lemma from_query_head (s : str) :
  from_query s = [] ∨ ∃ r, from_query s = "?" :: r.
Proof.
  induction s as [|c s IH]; simpl; [left; reflexivity|].
  destruct (Ascii.eqb c "?") eqn:E; [|exact IH].
  apply ascii_eqb_true in E as ->. right. eexists. reflexivity.
Qed.

Lemma split_query (s : str) :
  ∃ segs, Js.split "?" s = before_query s :: segs
          ∧ (segs ≫= λ y, "?" :: y) = from_query s.
Proof.
  induction s as [|c s (segs & Hsplit & Hjoin)]; simpl.
  - exists []. split; reflexivity.
  - rewrite Hsplit. destruct (Ascii.eqb c "?") eqn:E.
    + apply ascii_eqb_true in E as ->.
      exists (before_query s :: segs). split; [reflexivity|].
      rewrite bind_cons, Hjoin. simpl. f_equal.
      symmetry. apply before_from_query.
    + exists segs. split; [reflexivity | exact Hjoin].
Qed.

Lemma unsnoc_snoc (init : list str) (last : str) :
  unsnoc (init ++ [last]) = Some (init, last).
Proof.
  induction init as [|x init IH]; simpl; [reflexivity|].
  rewrite IH. reflexivity.
Qed.

Lemma urlJoin_snoc (init : list str) (last : str) :
  urlJoin (init ++ [last])
  = Some (fix_slashes
            (Js.join ["/"]
               (filter (λ a, Is_true (Js.truthy a)) (init ++ [before_query last])))
          ++ from_query last).
Proof.
  unfold urlJoin. rewrite unsnoc_snoc.
  destruct (split_query last) as (segs & -> & <-).
  cbn [hd tl app]. rewrite join_cons. reflexivity.
Qed.

(** *** Runs of slashes *)

Lemma collapse_head (s : str) :
  head (Js.collapse_slashes s) = head s.
Proof.
  induction s as [|c s IH]; [reflexivity|]. cbn [Js.collapse_slashes].
  destruct (Ascii.eqb c "/") eqn:E; [|reflexivity].
  destruct s as [|c' s]; [reflexivity|].
  destruct (Ascii.eqb c' "/") eqn:E'; [|reflexivity].
  rewrite IH. simpl. apply ascii_eqb_true in E, E'. congruence.
Qed.

Lemma starts_with_two (a b : ascii) (s : str) :
  Js.starts_with [a; b] s
  = match s with
    | x :: y :: _ => Ascii.eqb a x && Ascii.eqb b y
    | _ => false
    end.
Proof.
  unfold Js.starts_with. destruct s as [|x [|y s]]; simpl.
  - reflexivity.
  - destruct (Ascii.eqb a x); reflexivity.
  - destruct (Ascii.eqb a x), (Ascii.eqb b y); reflexivity.
Qed.

Lemma collapse_no_double (s : str) :
  Js.includes (lit "//") (Js.collapse_slashes s) = false.
Proof.
  change (lit "//") with ["/"; "/"].
  induction s as [|c s IH]; [reflexivity|].
  assert (Hkeep : (Ascii.eqb c "/" = false ∨ ∀ c' s', s = c' :: s' → Ascii.eqb c' "/" = false) →
                  Js.includes ["/"; "/"] (c :: Js.collapse_slashes s) = false).
  { intros Hc. cbn [Js.includes]. rewrite IH, orb_false_r, starts_with_two.
    pose proof (collapse_head s) as Hh.
    destruct (Js.collapse_slashes s) as [|y t]; [reflexivity|].
    destruct Hc as [Hc | Hc].
    - rewrite Ascii.eqb_sym, Hc. reflexivity.
    - destruct s as [|c' s']; [discriminate Hh|]. injection Hh as ->.
      rewrite (Ascii.eqb_sym "/" c'), (Hc c' s' eq_refl). apply andb_false_r. }
  cbn [Js.collapse_slashes].
  destruct (Ascii.eqb c "/") eqn:E; [|apply Hkeep; left; reflexivity].
  destruct s as [|c' s']; [apply Hkeep; right; discriminate|].
  destruct (Ascii.eqb c' "/") eqn:E'; [exact IH|].
  apply Hkeep. right. intros ? ? [= <- <-]. exact E'.
Qed.

Lemma collapse_tidy (s : str) :
  Js.includes (lit "//") s = false → Js.collapse_slashes s = s.
Proof.
  change (lit "//") with ["/"; "/"].
  induction s as [|c s IH]; [reflexivity|].
  cbn [Js.includes]. rewrite orb_false_iff, starts_with_two. intros [Hhere Hrest].
  cbn [Js.collapse_slashes]. rewrite (IH Hrest).
  destruct (Ascii.eqb c "/") eqn:E; [|reflexivity].
  destruct s as [|c' s']; [reflexivity|].
  cbv beta iota in Hhere.
  rewrite (Ascii.eqb_sym "/" c), (Ascii.eqb_sym "/" c'), E, andb_true_l in Hhere.
  rewrite Hhere. reflexivity.
Qed.

(** *** The first occurrence of a pattern *)

Lemma replace_first_cases (pat rep s : str) :
  (¬ occurs_in pat s ∧ Js.replace_first pat rep s = s)
  ∨ (∃ a b, s = a ++ pat ++ b ∧ Js.replace_first pat rep s = a ++ rep ++ b).
Proof.
  induction s as [|c s IH]; cbn [Js.replace_first].
  - destruct (Js.strip_prefix pat []) as [r|] eqn:E.
    + right. exists [], r. apply strip_prefix_Some in E. split; [exact E | reflexivity].
    + left. split; [|reflexivity]. intros (a & b & H).
      apply strip_prefix_None in E. apply E.
      destruct a; [exists b; exact H | discriminate].
  - destruct (Js.strip_prefix pat (c :: s)) as [r|] eqn:E.
    + right. exists [], r. apply strip_prefix_Some in E. split; [exact E | reflexivity].
    + apply strip_prefix_None in E.
      destruct IH as [[Hno ->] | (a & b & -> & ->)].
      * left. split; [|reflexivity]. intros (a & b & H).
        destruct a as [|c' a]; [apply E; exists b; exact H|].
        injection H as _ H. apply Hno. exists a, b. exact H.
      * right. exists (c :: a), b. split; reflexivity.
Qed.

Lemma insert_slash_occurrence (m' : str) (z : ascii) (a b pre post : str) :
  z ≠ "/" →
  (a ++ m' ++ [z]) ++ "/" :: "/" :: b = pre ++ "/" :: "/" :: post →
  pre = a ++ m' ++ [z]
  ∨ (∃ post', (a ++ m' ++ [z]) ++ "/" :: b = pre ++ "/" :: "/" :: post')
  ∨ (∃ k, pre = (a ++ m' ++ [z]) ++ "/" :: k
          ∧ (a ++ m' ++ [z]) ++ "/" :: b = ((a ++ m' ++ [z]) ++ k) ++ "/" :: "/" :: post).
Proof.
  intros Hz H. set (X := a ++ m' ++ [z]) in *.
  apply app_eq_inv in H as [(k & HX & Hk) | (k & Hpre & Hk)].
  - destruct k as [|c k]; [left; rewrite HX, app_nil_r; reflexivity|].
    simpl in Hk. injection Hk as <- Hk.
    destruct k as [|c k].
    + exfalso. subst X. rewrite !app_assoc in HX.
      apply app_inj_tail in HX as [_ ->]. apply Hz. reflexivity.
    + simpl in Hk. injection Hk as <- Hk. right. left.
      exists (k ++ "/" :: b). rewrite HX, <- app_assoc. reflexivity.
  - destruct k as [|c k]; [left; rewrite Hpre, app_nil_r; reflexivity|].
    simpl in Hk. injection Hk as <- Hk. right. right.
    exists k. split; [exact Hpre|]. rewrite Hk, <- app_assoc. reflexivity.
Qed.

Lemma http_step (s : str) :
  ¬ occurs_in (lit "//") s →
  ∀ pre post,
    Js.replace_first (lit "http:/") (lit "http://") s = pre ++ "/" :: "/" :: post →
    lit "http:" `suffix_of` pre.
Proof.
  intros Hno pre post H.
  destruct (replace_first_cases (lit "http:/") (lit "http://") s)
    as [[_ Hsame] | (a & b & -> & Hrep)]; rewrite H in *.
  - exfalso. apply Hno. exists pre, post. symmetry. exact Hsame.
  - clear H.
    assert (Hrep' : (a ++ lit "http" ++ [":"]) ++ "/" :: "/" :: b
                    = pre ++ "/" :: "/" :: post)
      by (rewrite Hrep, <- !app_assoc; reflexivity).
    destruct (insert_slash_occurrence (lit "http") ":" a b pre post
                ltac:(discriminate) Hrep')
      as [-> | [(post' & Hocc) | (k & _ & Hocc)]].
    + exists a. reflexivity.
    + exfalso. apply Hno. exists pre, post'.
      rewrite <- !app_assoc in Hocc. exact Hocc.
    + exfalso. apply Hno. exists ((a ++ lit "http" ++ [":"]) ++ k), post.
      etransitivity; [|exact Hocc]. rewrite <- !app_assoc. reflexivity.
Qed.

Lemma https_step (s : str) :
  (∀ pre post, s = pre ++ "/" :: "/" :: post → lit "http:" `suffix_of` pre) →
  slashes_ok (Js.replace_first (lit "https:/") (lit "https://") s).
Proof.
  intros Hs pre post H.
  destruct (replace_first_cases (lit "https:/") (lit "https://") s)
    as [[_ Hsame] | (a & b & -> & Hrep)]; rewrite H in *.
  - left. apply (Hs pre post). symmetry. exact Hsame.
  - clear H.
    assert (Hrep' : (a ++ lit "https" ++ [":"]) ++ "/" :: "/" :: b
                    = pre ++ "/" :: "/" :: post)
      by (rewrite Hrep, <- !app_assoc; reflexivity).
    destruct (insert_slash_occurrence (lit "https") ":" a b pre post
                ltac:(discriminate) Hrep')
      as [-> | [(post' & Hocc) | (k & -> & Hocc)]].
    + right. exists a. reflexivity.
    + left. apply (Hs pre post'). rewrite <- !app_assoc in Hocc. exact Hocc.
    + left.
      assert (Hk : lit "http:" `suffix_of` (a ++ lit "https" ++ [":"]) ++ k).
      { apply (Hs _ post). etransitivity; [|exact Hocc].
        rewrite <- !app_assoc. reflexivity. }
      destruct Hk as [u Hu].
      apply app_eq_inv in Hu as [(j & Hj1 & Hj2) | (j & Hj1 & Hj2)].
      * destruct j as [|j1 [|j2 [|j3 [|j4 [|j5 [|j6 j]]]]]]; simplify_eq/=;
          try (apply (f_equal reverse) in Hj1; rewrite !reverse_app in Hj1;
               simpl in Hj1; discriminate Hj1).
        exists ((a ++ lit "https" ++ [":"]) ++ ["/"]).
        rewrite <- !app_assoc. reflexivity.
      * exists ((a ++ lit "https" ++ [":"]) ++ "/" :: j).
        rewrite Hj2, <- !app_assoc. reflexivity.
Qed.
Lemma fix_slashes_ok (s : str) : slashes_ok (fix_slashes s).
Proof.
  unfold fix_slashes. apply https_step. apply http_step.
  intros Hocc. apply includes_true in Hocc.
  rewrite collapse_no_double in Hocc. discriminate Hocc.
Qed.

Lemma replace_first_absent (pat rep s : str) :
  ¬ occurs_in pat s → Js.replace_first pat rep s = s.
Proof.
  intros Hno.
  destruct (replace_first_cases pat rep s) as [[_ H] | (a & b & -> & _)];
    [exact H|].
  exfalso. apply Hno. exists a, b. reflexivity.
Qed.

Lemma fix_slashes_tidy (s : str) : tidy s → fix_slashes s = s.
Proof.
  intros (Hdouble & Hhttp & Hhttps). unfold fix_slashes.
  rewrite collapse_tidy.
  - rewrite (replace_first_absent _ _ s Hhttp).
    apply replace_first_absent. exact Hhttps.
  - apply not_true_iff_false. rewrite includes_true. exact Hdouble.
Qed.

Lemma join_right_empty (a : str) :
  Js.join ["/"] (filter (λ a, Is_true (Js.truthy a)) [a; []]) = a.
Proof. destruct a; reflexivity. Qed.

Lemma join_left_empty (b : str) :
  Js.join ["/"] (filter (λ a, Is_true (Js.truthy a)) [[]; b]) = b.
Proof. destruct b; reflexivity. Qed.

(** C2, as stated, fails: joining "a//b" with the empty string gives
    "a/b", not "a//b". *)
Lemma urlJoin_right_empty_changes_path :
  urlJoin [lit "a//b"; []] = Some (lit "a/b")
  ∧ urlJoin [lit "a//b"; []] ≠ Some (lit "a//b").
Proof. split; [reflexivity | discriminate]. Qed.

(** C2, amended. [urlJoin] of [a] and the empty string is [a] after the
    three slash replacements (runs of slashes made one, then the first
    "http:/" and the first "https:/" given their second slash), hence
    [a] itself when [a] has no two slashes in a row and no "http:/" or
    "https:/"; [urlJoin] of the empty string and [b] is the path of [b]
    treated the same way, followed by the query of [b].  For any
    arguments, the result is the joined path followed by the last
    argument from its first "?" on, taken as it is; the joined path
    comes from the arguments before the last and the last one up to its
    first "?", empty ones left out, with "/" in between and the
    replacements applied; two slashes in a row occur in it only right
    behind "http:" or "https:". *)
Theorem urlJoin_laws :
  (∀ a, urlJoin [a; []] = Some (fix_slashes a))
  ∧ (∀ a, tidy a → urlJoin [a; []] = Some a)
  ∧ (∀ b, urlJoin [[]; b] = Some (fix_slashes (before_query b) ++ from_query b))
  ∧ (∀ b, tidy (before_query b) → urlJoin [[]; b] = Some b)
  ∧ (∀ init last,
       ∃ joined,
         urlJoin (init ++ [last]) = Some (joined ++ from_query last)
         ∧ joined
           = fix_slashes
               (Js.join ["/"]
                  (filter (λ a, Is_true (Js.truthy a)) (init ++ [before_query last])))
         ∧ slashes_ok joined)
  ∧ (∀ last,
       last = before_query last ++ from_query last
       ∧ ("?" ∉ before_query last)
       ∧ (from_query last = [] ∨ ∃ r, from_query last = "?" :: r)).
Proof.
  assert (Hright : ∀ a, urlJoin [a; []] = Some (fix_slashes a)).
  { intros a. pose proof (urlJoin_snoc [a] []) as H.
    cbn [app before_query from_query] in H.
    rewrite join_right_empty, app_nil_r in H. exact H. }
  assert (Hleft : ∀ b, urlJoin [[]; b]
                       = Some (fix_slashes (before_query b) ++ from_query b)).
  { intros b. pose proof (urlJoin_snoc [[]] b) as H. cbn [app] in H.
    rewrite join_left_empty in H. exact H. }
  split; [exact Hright|].
  split; [intros a Ha; rewrite Hright, (fix_slashes_tidy a Ha); reflexivity|].
  split; [exact Hleft|].
  split.
  { intros b Hb. rewrite Hleft, (fix_slashes_tidy _ Hb), <- before_from_query.
    reflexivity. }
  split.
  { intros init last. eexists. split; [apply urlJoin_snoc|].
    split; [reflexivity | apply fix_slashes_ok]. }
  intros last. split; [apply before_from_query|].
  split; [apply before_query_no_mark | apply from_query_head].
Qed.

Lemma not_occurs_in (p s : str) : Js.includes p s = false → ¬ occurs_in p s.
Proof. intros H Hocc. apply includes_true in Hocc. congruence. Qed.

Lemma urlJoin_laws_witness :
  urlJoin [lit "/api/v1"; []] = Some (lit "/api/v1")
  ∧ urlJoin [[]; lit "/v1/users?next=//x"] = Some (lit "/v1/users?next=//x").
Proof.
  destruct urlJoin_laws as (_ & Hright & _ & Hleft & _).
  split.
  - apply Hright. repeat split; apply not_occurs_in; reflexivity.
  - apply Hleft. repeat split; apply not_occurs_in; reflexivity.
Defined.

(** The scenario of section 8: a target path, an inbound path and a
    query that keeps its slashes and its second "?". *)
Example urlJoin_target_and_request :
  urlJoin [lit "http://upstream:8080//api/"; lit "/v1//users?next=//x?y"]
  = Some (lit "http://upstream:8080/api/v1/users?next=//x?y").
Proof. reflexivity. Qed.

End UrlJoin.

(** ** More on the pass registry *)

Section RegistryMore.

Import Common Server.

Lemma scan_None (passes : list Pass) (passName : str) (idx : nat) (i : option nat) :
  scan passes passName idx i = None
  ↔ i = None ∧ Forall (λ q, name q ≠ passName) passes.
Proof.
  revert idx i. induction passes as [|v passes IH]; intros idx i; simpl.
  - split; [intros ->; split; [reflexivity | constructor] | intros [-> _]; reflexivity].
  - rewrite IH. case_bool_decide as Hv.
    + split; [intros [[=] _] | intros [_ H]; inversion H; contradiction].
    + split; [intros [-> H]; split; [reflexivity | constructor; assumption]
             | intros [-> H]; inversion H; split; [reflexivity | assumption]].
Qed.

Lemma scan_Some (passes : list Pass) (passName : str) (k : nat) :
  scan passes passName 0 None = Some k →
  ∃ l1 p l2, passes = l1 ++ p :: l2 ∧ length l1 = k
             ∧ name p = passName ∧ Forall (λ q, name q ≠ passName) l2.
Proof.
  revert k. induction passes as [|q passes IH] using rev_ind; intros k.
  - discriminate.
  - rewrite scan_app. simpl. case_bool_decide as Hq.
    + intros [= <-]. exists passes, q, []. auto.
    + intros H. destruct (IH k H) as (l1 & p & l2 & -> & Hk & Hp & Hl2).
      exists l1, p, (l2 ++ [q]). rewrite <- app_assoc. split; [reflexivity|].
      split; [exact Hk|]. split; [exact Hp|].
      apply Forall_app. split; [exact Hl2 | constructor; [exact Hq | constructor]].
Qed.

Lemma kind_guard (type : str) :
  bool_decide (type ≠ lit "ws") && bool_decide (type ≠ lit "web") = false
  ↔ type = lit "ws" ∨ type = lit "web".
Proof.
  rewrite andb_false_iff, !bool_decide_eq_false.
  split; (intros [H | H]; [left | right]).
  - destruct (decide (type = lit "ws")); [assumption | contradiction].
  - destruct (decide (type = lit "web")); [assumption | contradiction].
  - intros Hn. contradiction.
  - intros Hn. contradiction.
Qed.

(** X1. [before] and [after] raise "type must be `web` or `ws`" exactly
    for a kind other than those two, and "No such pass" exactly for a
    good kind whose list holds no pass of the given name; in every
    other case they return. *)
Theorem registry_errors
    (self : ProxyServer) (type passName : str) (callback : Pass) :
  (before self type passName callback = Thrown (lit "type must be `web` or `ws`")
   ↔ type ≠ lit "ws" ∧ type ≠ lit "web")
  ∧ (before self type passName callback = Thrown (lit "No such pass")
     ↔ (type = lit "ws" ∨ type = lit "web")
       ∧ Forall (λ q, name q ≠ passName) (passes_of self type))
  ∧ after self type passName callback = before self type passName callback
  ∧ ((∃ self', before self type passName callback = Returned self')
     ↔ (type = lit "ws" ∨ type = lit "web")
       ∧ Exists (λ q, name q = passName) (passes_of self type)).
Proof.
  assert (Hsame : after self type passName callback
                  = before self type passName callback).
  { unfold after, before. destruct (_ && _); [reflexivity|].
    destruct (scan _ _ _ _); reflexivity. }
  split; [|split; [|split; [exact Hsame|]]]; unfold before.
  - destruct (bool_decide (type ≠ lit "ws") && bool_decide (type ≠ lit "web")) eqn:E.
    + apply andb_true_iff in E as [E1 E2].
      apply bool_decide_eq_true in E1, E2. tauto.
    + apply kind_guard in E.
      split; [|intros [? ?]; destruct E; contradiction].
      destruct (scan _ _ _ _); discriminate.
  - destruct (bool_decide (type ≠ lit "ws") && bool_decide (type ≠ lit "web")) eqn:E.
    + apply andb_true_iff in E as [E1 E2].
      apply bool_decide_eq_true in E1, E2.
      split; [discriminate | intros [[?|?] _]; contradiction].
    + apply kind_guard in E.
      destruct (scan (passes_of self type) passName 0 None) as [k|] eqn:Hs.
      * split; [discriminate|]. intros [_ Hall].
        assert (scan (passes_of self type) passName 0 None = None)
          by (apply scan_None; auto).
        congruence.
      * apply scan_None in Hs as [_ Hall]. split; [auto | reflexivity].
  - destruct (bool_decide (type ≠ lit "ws") && bool_decide (type ≠ lit "web")) eqn:E.
    + apply andb_true_iff in E as [E1 E2].
      apply bool_decide_eq_true in E1, E2.
      split; [intros [? [=]] | intros [[?|?] _]; contradiction].
    + apply kind_guard in E.
      destruct (scan (passes_of self type) passName 0 None) as [k|] eqn:Hs.
      * split; [|eauto]. intros _. split; [exact E|].
        apply scan_Some in Hs as (l1 & p & l2 & -> & _ & Hp & _).
        apply Exists_app. right. constructor. exact Hp.
      * apply scan_None in Hs as [_ Hall].
        split; [intros [? [=]]|]. intros [_ Hex].
        apply Exists_exists in Hex as (q & Hin & Hq).
        rewrite Forall_forall in Hall. destruct (Hall q Hin Hq).
Qed.

(** X2. A call of [before] or [after] that returns has put the new
    stage right in front of the last pass of the given name and has
    changed nothing else: the passes of the list keep their order, the
    other list, the options and the listeners stay as they were. *)
Theorem registry_insertion_shape
    (self self' : ProxyServer) (type passName : str) (callback : Pass) :
  before self type passName callback = Returned self'
  ∨ after self type passName callback = Returned self' →
  (∃ l1 p l2,
     passes_of self type = l1 ++ p :: l2
     ∧ name p = passName
     ∧ Forall (λ q, name q ≠ passName) l2
     ∧ passes_of self' type = l1 ++ callback :: p :: l2)
  ∧ (if bool_decide (type = lit "ws")
     then webPasses self' = webPasses self
     else wsPasses self' = wsPasses self)
  ∧ options self' = options self
  ∧ events self' = events self.
Proof.
  intros H.
  assert (Hb : before self type passName callback = Returned self').
  { destruct H as [H | H]; [exact H|]. rewrite <- H. unfold after, before.
    destruct (_ && _); [reflexivity|]. destruct (scan _ _ _ _); reflexivity. }
  clear H. unfold before in Hb.
  destruct (bool_decide (type ≠ lit "ws") && bool_decide (type ≠ lit "web"));
    [discriminate|].
  destruct (scan (passes_of self type) passName 0 None) as [k|] eqn:Hs;
    [|discriminate].
  injection Hb as <-.
  apply scan_Some in Hs as (l1 & p & l2 & Hl & <- & Hp & Hl2).
  split.
  - exists l1, p, l2. split; [exact Hl|]. split; [exact Hp|]. split; [exact Hl2|].
    rewrite passes_of_set_passes, Hl. apply splice_at_length.
  - unfold set_passes. case_bool_decide; simpl; auto.
Qed.

Lemma registry_insertion_shape_witness :
  ∃ self',
    before (new no_options) (lit "web") (lit "stream")
      {| name := lit "audit"; body := 40 |} = Returned self'
    ∧ webPasses self'
      = [ {| name := lit "deleteLength"; body := 10 |};
          {| name := lit "timeout"; body := 11 |};
          {| name := lit "xHeaders"; body := 12 |};
          {| name := lit "audit"; body := 40 |};
          {| name := lit "stream"; body := 13 |} ]
    ∧ wsPasses self' = ws_passes.
Proof.
  eexists. split; [reflexivity|].
  destruct (registry_insertion_shape (new no_options) _ (lit "web") (lit "stream")
              {| name := lit "audit"; body := 40 |} (or_introl eq_refl))
    as ((l1 & p & l2 & _) & Hother & _).
  split; [reflexivity | exact Hother].
Defined.

End RegistryMore.
(** ** Walking the passes *)

Section ExecutorFacts.

Import Common Server Pipeline.

Variable spread : proxyOptions → option proxyOptions → proxyOptions.
Variable St : Type.
Variable invoke :
  ProxyServer → Pass → call_args → proxyOptions → St → pass_result * St.

Lemma run_passes_app (self : ProxyServer) (l1 l2 : list Pass)
    (args : call_args) (ro : proxyOptions) (st st1 : St) :
  run_passes St invoke self l1 args ro st = (l1, Completed, st1) →
  run_passes St invoke self (l1 ++ l2) args ro st
  = let '(called, e, st2) := run_passes St invoke self l2 args ro st1 in
    (l1 ++ called, e, st2).
Proof.
  revert st. induction l1 as [|p l1 IH]; intros st; simpl.
  - intros [= <-]. destruct (run_passes _ _ _ _ _ _ _) as [[? ?] ?]. reflexivity.
  - destruct (invoke self p args ro st) as [[| |e] st'];
      [|discriminate|discriminate].
    destruct (run_passes St invoke self l1 args ro st') as [[called e] st''] eqn:Hrun.
    intros [= -> -> ->]. rewrite (IH st' Hrun).
    destruct (run_passes St invoke self l2 args ro st1) as [[? ?] ?]. reflexivity.
Qed.

(** X3. The loop stops at the first pass that answers something truthy
    or raises: when the passes of [l1] all answered falsy and [p] does
    not, the passes called are those of [l1] and [p], whatever follows
    [p] in the list, and the state is the one [p] left. *)
Theorem run_passes_stops_at_first_halt
    (self : ProxyServer) (l1 l2 : list Pass) (p : Pass) (args : call_args)
    (ro : proxyOptions) (st st1 st2 : St) (r : pass_result) :
  run_passes St invoke self l1 args ro st = (l1, Completed, st1) →
  invoke self p args ro st1 = (r, st2) →
  r ≠ Continue →
  run_passes St invoke self (l1 ++ p :: l2) args ro st
  = (l1 ++ [p],
     match r with
     | Raise e => Raised e
     | _ => Halted
     end,
     st2).
Proof.
  intros Hl1 Hp Hr. rewrite (run_passes_app _ _ _ _ _ _ _ Hl1).
  simpl. rewrite Hp. destruct r; [contradiction | reflexivity | reflexivity].
Qed.

(** X4. The passes called are always an initial part of the list, and
    the loop runs to completion only by calling every pass. *)
Theorem run_passes_prefix
    (self : ProxyServer) (passes : list Pass) (args : call_args)
    (ro : proxyOptions) (st : St) :
  (run_passes St invoke self passes args ro st).1.1 `prefix_of` passes
  ∧ ((run_passes St invoke self passes args ro st).1.2 = Completed →
     (run_passes St invoke self passes args ro st).1.1 = passes).
Proof.
  revert st. induction passes as [|p passes IH]; intros st; simpl.
  - split; reflexivity.
  - destruct (invoke self p args ro st) as [[| |e] st']; simpl.
    + specialize (IH st').
      destruct (run_passes St invoke self passes args ro st') as [[called e] st''].
      simpl in *. destruct IH as [Hpre Hall]. split.
      * apply prefix_cons. exact Hpre.
      * intros He. rewrite (Hall He). reflexivity.
    + split; [apply prefix_cons, prefix_nil | discriminate].
    + split; [apply prefix_cons, prefix_nil | discriminate].
Qed.

Lemma emit_error_on_new (opts : proxyOptions) (err : Error) :
  emit (new opts) (lit "error") err = Thrown err.
Proof. reflexivity. Qed.

Lemma emit_error_listened (opts : proxyOptions) (err : Error)
    (fs : list (Error → outcome unit)) :
  fs ≠ [] → Forall (λ f, f err = Returned tt) fs →
  emit (attach fs (new opts)) (lit "error") err = Returned true.
Proof.
  intros Hne Hret.
  assert (Hls : listeners (attach fs (new opts)) (lit "error")
                = OwnOnError :: map External fs)
    by (rewrite listeners_attach, listeners_new; reflexivity).
  assert (Hquiet : onError (attach fs (new opts)) err = Returned tt).
  { unfold onError. rewrite Hls. destruct fs; [contradiction | reflexivity]. }
  unfold emit. rewrite Hls. cbn [call_all call]. rewrite Hquiet.
  rewrite call_all_external by exact Hret. reflexivity.
Qed.

Lemma options_attach (fs : list (Error → outcome unit)) (self : ProxyServer) :
  options (attach fs self) = options self
  ∧ wsPasses (attach fs self) = wsPasses self
  ∧ webPasses (attach fs self) = webPasses self.
Proof.
  revert self. induction fs as [|f fs IH]; intros self; [auto|].
  change (attach (f :: fs) self)
    with (attach fs (on self (lit "error") (External f))).
  destruct (IH (on self (lit "error") (External f))) as (H1 & H2 & H3).
  rewrite H1, H2, H3. auto.
Qed.

(** X5. A call of [web] or [ws] whose effective options hold neither a
    target nor a forward URL calls no pass and emits "error" with the
    message "Must provide a proper URL as target".  On a server with no
    listener of its own making that emit throws the error at the
    caller; with outside listeners that return, the call returns. *)
Theorem unconfigured_request
    (type : str) (opts : proxyOptions) (fs : list (Error → outcome unit))
    (args : call_args) (st : St) :
  let self := attach fs (new opts) in
  let msg := lit "Must provide a proper URL as target" in
  target (spread (options self) (a_options args)) = None →
  forward (spread (options self) (a_options args)) = None →
  Forall (λ f, f msg = Returned tt) fs →
  processRequest spread St invoke type self args st
  = Unconfigured St (if bool_decide (fs = []) then Thrown msg else Returned true).
Proof.
  intros self msg Ht Hf Hret. unfold processRequest. rewrite Ht, Hf. f_equal.
  case_bool_decide as Hfs.
  - subst self. rewrite Hfs. apply emit_error_on_new.
  - apply emit_error_listened; assumption.
Qed.

End ExecutorFacts.

Lemma run_passes_stops_at_first_halt_witness :
  let invoke := λ (_ : Server.ProxyServer) (p : Server.Pass)
                  (_ : Server.call_args) (_ : Common.proxyOptions) (n : nat),
                  (if Nat.eqb (Server.body p) 1 then Pipeline.Halt
                   else Pipeline.Continue, S n) in
  Pipeline.run_passes nat invoke (Server.new Common.no_options)
    ([ {| Server.name := lit "checkMethodAndHeader"; Server.body := 0 |} ]
     ++ {| Server.name := lit "xHeaders"; Server.body := 1 |}
     :: [ {| Server.name := lit "stream"; Server.body := 2 |} ])
    post_upgrade_args Common.no_options 0
  = ([ {| Server.name := lit "checkMethodAndHeader"; Server.body := 0 |} ]
     ++ [ {| Server.name := lit "xHeaders"; Server.body := 1 |} ],
     Pipeline.Halted, 2).
Proof.
  intros invoke.
  apply (run_passes_stops_at_first_halt nat invoke (Server.new Common.no_options)
           _ _ _ post_upgrade_args Common.no_options 0 1 2 Pipeline.Halt);
    [reflexivity | reflexivity | discriminate].
Defined.

Lemma unconfigured_request_witness :
  Pipeline.processRequest (λ o _, o) nat
    (λ _ _ _ _ n, (Pipeline.Continue, S n))
    (lit "web") (attach [] (Server.new Common.no_options)) post_upgrade_args 0
  = Pipeline.Unconfigured nat (Server.Thrown (lit "Must provide a proper URL as target")).
Proof.
  apply (unconfigured_request (λ o _, o) nat (λ _ _ _ _ n, (Pipeline.Continue, S n))
           (lit "web") Common.no_options [] post_upgrade_args 0);
    [reflexivity | reflexivity | constructor].
Defined.
(** ** More on the forwarded headers *)

Section ForwardedHeaders.

Import Common WsIncoming.

Lemma forward_header_appended (headers : gmap str str) (header value : str) :
  forward_header headers header value
  = <[lit "x-forwarded-" ++ header :=
        appended (headers !! (lit "x-forwarded-" ++ header)) value]> headers.
Proof.
  unfold forward_header.
  destruct (headers !! (lit "x-forwarded-" ++ header)) as [[|c o]|]; reflexivity.
Qed.

Lemma xHeaders_headers (req : IncomingMessage) (options : proxyOptions) :
  xfwd options = true →
  req_headers (xHeaders req options)
  = <[lit "x-forwarded-proto" :=
        appended (req_headers req !! lit "x-forwarded-proto")
          (if hasEncryptedConnection req then lit "wss" else lit "ws")]>
      (<[lit "x-forwarded-port" :=
           appended (req_headers req !! lit "x-forwarded-port") (getPort req)]>
         (<[lit "x-forwarded-for" :=
              appended (req_headers req !! lit "x-forwarded-for")
                (address_to_string (remoteAddress req))]>
            (req_headers req))).
Proof.
  intros Hx. unfold xHeaders. rewrite Hx. cbn [negb req_headers fold_left].
  rewrite !forward_header_appended.
  change (lit "x-forwarded-" ++ lit "for") with (lit "x-forwarded-for").
  change (lit "x-forwarded-" ++ lit "port") with (lit "x-forwarded-port").
  change (lit "x-forwarded-" ++ lit "proto") with (lit "x-forwarded-proto").
  rewrite (lookup_insert_ne _ (lit "x-forwarded-for") (lit "x-forwarded-port"))
    by discriminate.
  rewrite (lookup_insert_ne _ (lit "x-forwarded-port") (lit "x-forwarded-proto"))
    by discriminate.
  rewrite (lookup_insert_ne _ (lit "x-forwarded-for") (lit "x-forwarded-proto"))
    by discriminate.
  reflexivity.
Qed.

Lemma xHeaders_rest (req : IncomingMessage) (options : proxyOptions) :
  req_method (xHeaders req options) = req_method req
  ∧ req_url (xHeaders req options) = req_url req
  ∧ req_connection (xHeaders req options) = req_connection req
  ∧ req_socket (xHeaders req options) = req_socket req
  ∧ remoteAddress (xHeaders req options) = remoteAddress req.
Proof. unfold xHeaders. destruct (negb (xfwd options)); auto. Qed.

Lemma xHeaders_other (req : IncomingMessage) (options : proxyOptions) (k : str) :
  k ≠ lit "x-forwarded-for" → k ≠ lit "x-forwarded-port" →
  k ≠ lit "x-forwarded-proto" →
  req_headers (xHeaders req options) !! k = req_headers req !! k.
Proof.
  intros Hf Hp Hr. destruct (xfwd options) eqn:Hx.
  - rewrite (xHeaders_headers req options Hx).
    rewrite !lookup_insert_ne by congruence. reflexivity.
  - unfold xHeaders. rewrite Hx. reflexivity.
Qed.

Lemma getPort_xHeaders (req : IncomingMessage) (options : proxyOptions) :
  getPort (xHeaders req options) = getPort req
  ∧ hasEncryptedConnection (xHeaders req options) = hasEncryptedConnection req.
Proof.
  destruct (xHeaders_rest req options) as (_ & _ & Hc & _).
  unfold getPort, hasEncryptedConnection.
  rewrite Hc, (xHeaders_other req options (lit "host")) by discriminate.
  split; reflexivity.
Qed.

(** X6. The [xHeaders] pass touches the three headers
    [x-forwarded-for], [x-forwarded-port] and [x-forwarded-proto] and
    nothing else of the request: with [xfwd] set each of the three gets
    its value appended (the remote address, the port of [getPort],
    "wss" or "ws"), every other header, the method, the URL and the
    connection stay as they were; without [xfwd] the request comes back
    unchanged. *)
Theorem xHeaders_touches_three_headers
    (req : IncomingMessage) (options : proxyOptions) :
  (xfwd options = false → xHeaders req options = req)
  ∧ (xfwd options = true →
     req_headers (xHeaders req options) !! lit "x-forwarded-for"
     = Some (appended (req_headers req !! lit "x-forwarded-for")
               (address_to_string (remoteAddress req)))
     ∧ req_headers (xHeaders req options) !! lit "x-forwarded-port"
       = Some (appended (req_headers req !! lit "x-forwarded-port")
                 (getPort req))
     ∧ req_headers (xHeaders req options) !! lit "x-forwarded-proto"
       = Some (appended (req_headers req !! lit "x-forwarded-proto")
                 (if hasEncryptedConnection req then lit "wss" else lit "ws")))
  ∧ (∀ k, k ≠ lit "x-forwarded-for" → k ≠ lit "x-forwarded-port" →
          k ≠ lit "x-forwarded-proto" →
          req_headers (xHeaders req options) !! k = req_headers req !! k)
  ∧ req_method (xHeaders req options) = req_method req
  ∧ req_url (xHeaders req options) = req_url req
  ∧ req_connection (xHeaders req options) = req_connection req
  ∧ req_socket (xHeaders req options) = req_socket req
  ∧ remoteAddress (xHeaders req options) = remoteAddress req.
Proof.
  split; [|split; [|split]].
  - intros Hx. unfold xHeaders. rewrite Hx. reflexivity.
  - intros Hx. rewrite (xHeaders_headers req options Hx).
    split; [|split].
    + rewrite !lookup_insert_ne by discriminate. apply lookup_insert_eq.
    + rewrite lookup_insert_ne by discriminate. apply lookup_insert_eq.
    + apply lookup_insert_eq.
  - apply xHeaders_other.
  - apply xHeaders_rest.
Qed.

Lemma appended_twice (old : option str) (v : str) :
  v ≠ [] → appended (Some (appended old v)) v = appended old v ++ [","] ++ v.
Proof.
  intros Hv. destruct old as [[|c o]|]; simpl; destruct v; try contradiction; reflexivity.
Qed.

Lemma take_digits_digits (s : str) :
  Forall (λ c, Js.is_digit c = true) (take_digits s).
Proof.
  induction s as [|c s IH]; simpl; [constructor|].
  destruct (Js.is_digit c) eqn:E; constructor; assumption.
Qed.

Lemma match_port_digits (h ds : str) :
  match_port h = Some ds → ds ≠ [] ∧ Forall (λ c, Js.is_digit c = true) ds.
Proof.
  induction h as [|c h IH]; simpl; [discriminate|].
  destruct (Ascii.eqb c ":"); [|exact IH].
  pose proof (take_digits_digits h) as Hd.
  destruct (take_digits h) as [|d ds']; [exact IH|].
  intros [= <-]. split; [discriminate | exact Hd].
Qed.

Lemma getPort_digits (req : IncomingMessage) :
  getPort req ≠ [] ∧ Forall (λ c, Js.is_digit c = true) (getPort req).
Proof.
  unfold getPort.
  assert (Hdefault : (if hasEncryptedConnection req then lit "443" else lit "80") ≠ []
                     ∧ Forall (λ c, Js.is_digit c = true)
                         (if hasEncryptedConnection req then lit "443" else lit "80")).
  { destruct (hasEncryptedConnection req); split;
      try discriminate; repeat constructor. }
  destruct (req_headers req !! lit "host") as [h|]; [|exact Hdefault].
  destruct (Js.truthy h); [|exact Hdefault].
  destruct (match_port h) as [ds|] eqn:Hm; [|exact Hdefault].
  apply (match_port_digits h ds Hm).
Qed.

(** X7. Running the [xHeaders] pass twice with [xfwd] set appends the
    same port and the same protocol twice, comma-separated and in
    order: the first run does not change what the second one reads. *)
Theorem xHeaders_accumulates (req : IncomingMessage) (options : proxyOptions) :
  xfwd options = true →
  req_headers (xHeaders (xHeaders req options) options) !! lit "x-forwarded-port"
  = Some (appended (req_headers req !! lit "x-forwarded-port") (getPort req)
          ++ [","] ++ getPort req)
  ∧ req_headers (xHeaders (xHeaders req options) options) !! lit "x-forwarded-proto"
    = Some (appended (req_headers req !! lit "x-forwarded-proto")
              (if hasEncryptedConnection req then lit "wss" else lit "ws")
            ++ [","] ++ (if hasEncryptedConnection req then lit "wss" else lit "ws"))
  ∧ req_headers (xHeaders (xHeaders req options) options) !! lit "x-forwarded-for"
    = Some (appended
              (Some (appended (req_headers req !! lit "x-forwarded-for")
                       (address_to_string (remoteAddress req))))
              (address_to_string (remoteAddress req))).
Proof.
  intros Hx.
  destruct (getPort_xHeaders req options) as [Hport Henc].
  destruct (xHeaders_rest req options) as (_ & _ & _ & _ & Haddr).
  rewrite (xHeaders_headers (xHeaders req options) options Hx).
  rewrite Hport, Henc, Haddr.
  rewrite (xHeaders_headers req options Hx).
  split; [|split].
  - rewrite lookup_insert_ne by discriminate. rewrite lookup_insert_eq.
    rewrite lookup_insert_ne by discriminate. rewrite lookup_insert_eq.
    rewrite appended_twice by apply getPort_digits. reflexivity.
  - rewrite !lookup_insert_eq.
    rewrite appended_twice by (destruct (hasEncryptedConnection req); discriminate).
    reflexivity.
  - rewrite !lookup_insert_ne by discriminate. rewrite !lookup_insert_eq.
    rewrite !lookup_insert_ne by discriminate. rewrite !lookup_insert_eq.
    reflexivity.
Qed.

Lemma xHeaders_accumulates_witness :
  req_headers
    (xHeaders (xHeaders post_upgrade_request
                 {| target := None; forward := None; opt_method := None;
                    opt_headers := None; auth := None; opt_ca := None;
                    secure := None; httpAgent := None; httpsAgent := None;
                    localAddress := None; prependPath := None;
                    toProxy := false; ignorePath := false;
                    changeOrigin := false; xfwd := true |})
       {| target := None; forward := None; opt_method := None;
          opt_headers := None; auth := None; opt_ca := None;
          secure := None; httpAgent := None; httpsAgent := None;
          localAddress := None; prependPath := None;
          toProxy := false; ignorePath := false;
          changeOrigin := false; xfwd := true |})
    !! lit "x-forwarded-port"
  = Some (lit "80,80").
Proof.
  apply (xHeaders_accumulates post_upgrade_request
           {| target := None; forward := None; opt_method := None;
              opt_headers := None; auth := None; opt_ca := None;
              secure := None; httpAgent := None; httpsAgent := None;
              localAddress := None; prependPath := None;
              toProxy := false; ignorePath := false;
              changeOrigin := false; xfwd := true |} eq_refl).
Defined.

(** X8. [getPort] always answers a decimal number: a string that is not
    empty and holds digits only. *)
Theorem getPort_is_decimal (req : IncomingMessage) :
  getPort req ≠ [] ∧ Forall (λ c, Js.is_digit c = true) (getPort req).
Proof. apply getPort_digits. Qed.

Lemma take_digits_split (s : str) :
  ∃ rest, s = take_digits s ++ rest
          ∧ (∀ c r, rest = c :: r → Js.is_digit c = false).
Proof.
  induction s as [|c s (rest & Hs & Hrest)]; simpl.
  - exists []. split; [reflexivity | discriminate].
  - destruct (Js.is_digit c) eqn:E.
    + exists rest. split; [simpl; f_equal; exact Hs | exact Hrest].
    + exists (c :: s). split; [reflexivity|]. intros ? ? [= <- _]. exact E.
Qed.

Lemma no_colon_digit_cons (c : ascii) (s : str) :
  (c = ":" → ∀ d b, s = d :: b → Js.is_digit d = false) →
  no_colon_digit s → no_colon_digit (c :: s).
Proof.
  intros Hc Hs a d b H. destruct a as [|x a]; simpl in H.
  - injection H as -> ->. apply (Hc eq_refl d b eq_refl).
  - injection H as _ ->. apply (Hs a d b eq_refl).
Qed.

Lemma match_port_sound (h ds : str) :
  match_port h = Some ds → ∃ pre rest, first_colon_digits h pre ds rest.
Proof.
  induction h as [|c h IH]; simpl; [discriminate|].
  assert (Hcons : ∀ pre rest,
            (c = ":" → ∀ d b, pre ++ ":" :: ds ++ rest = d :: b → Js.is_digit d = false) →
            first_colon_digits h pre ds rest →
            first_colon_digits (c :: h) (c :: pre) ds rest).
  { intros pre rest Hc (-> & Hne & Hds & Hrest & Hpre).
    split; [reflexivity|]. split; [exact Hne|]. split; [exact Hds|].
    split; [exact Hrest|].
    apply no_colon_digit_cons; [|exact Hpre].
    intros Hcolon d b ->.
    apply (Hc Hcolon d (b ++ ":" :: ds ++ rest)). reflexivity. }
  destruct (Ascii.eqb c ":") eqn:E.
  - apply ascii_eqb_true in E as ->.
    destruct (take_digits_split h) as (rest & Hh & Hrest).
    pose proof (take_digits_digits h) as Hd.
    destruct (take_digits h) as [|d ds'] eqn:Ht.
    + intros Hm. destruct (IH Hm) as (pre & rest' & Hf).
      exists (":" :: pre), rest'. apply Hcons; [|exact Hf].
      intros _ d b Hdb. destruct Hf as (Hh' & _). rewrite <- Hh' in Hdb.
      simpl in Hh. subst rest. apply (Hrest d b Hdb).
    + intros [= <-]. exists [], rest. split; [simpl; f_equal; exact Hh|].
      split; [discriminate|]. split; [exact Hd|]. split; [exact Hrest|].
      intros a d' b H. destruct a; discriminate H.
  - intros Hm. destruct (IH Hm) as (pre & rest' & Hf).
    exists (c :: pre), rest'. apply Hcons; [|exact Hf].
    intros ->. discriminate E.
Qed.

(** X9. [getPort] takes its answer from the [Host] header exactly when
    the header holds a colon with a digit behind it: the pattern
    matches with capture [ds] if and only if the header splits at the
    first such colon with [ds] the full run of digits behind it. *)
Theorem match_port_iff (h ds : str) :
  match_port h = Some ds ↔ ∃ pre rest, first_colon_digits h pre ds rest.
Proof.
  split; [apply match_port_sound|].
  intros (pre & rest & Hf). apply (match_port_first _ _ _ _ Hf).
Qed.

End ForwardedHeaders.
(** ** More on [setupOutgoing] *)

Section OutgoingFacts.

Import Common SpecMore.

Variable requiresPort : port_value → str → bool.
Variable url_parse_path : str → option (option str).

Lemma setupOutgoing_fields (outgoing : RequestOptions) (options : proxyOptions)
    (req : IncomingMessage) (w : which) (out : RequestOptions) :
  setupOutgoing requiresPort url_parse_path outgoing options req w = Some out →
  ∃ t,
    selected options w = Some t
    ∧ o_port out = Some (outgoing_port t)
    ∧ o_host out = host t
    ∧ o_agent out = (if bool_decide (protocol t = Some (lit "http:"))
                     then httpAgent options else httpsAgent options)
    ∧ o_rejectUnauthorized out
      = (if isSSL_test (protocol t)
         then Some (match secure options with None => true | Some b => b end)
         else o_rejectUnauthorized outgoing)
    ∧ urlJoin [chosen_target_path options t;
               chosen_request_path url_parse_path options req]
      = Some (o_path out)
    ∧ (if changeOrigin options
       then ∃ v, origin_host requiresPort (outgoing_port t) (protocol t) (host t) = Some v
                 ∧ o_headers out = <[lit "host" := v]> (settled_headers options req t)
       else o_headers out = settled_headers options req t).
Proof.
  unfold setupOutgoing. destruct (selected options w) as [t|]; [|discriminate].
  destruct (if negb (toProxy options)
            then default [] <$> url_parse_path (req_url req)
            else Some (req_url req)) as [op|] eqn:Hop; [|discriminate].
  assert (Hpath :
    (if negb (ignorePath options) then op else [])
    = chosen_request_path url_parse_path options req).
  { unfold chosen_request_path.
    destruct (ignorePath options), (toProxy options); try reflexivity;
      cbn [negb] in *; [congruence|].
    destruct (url_parse_path (req_url req)) as [[p|]|]; simplify_eq/=; reflexivity. }
  rewrite Hpath.
  change (if bool_decide (prependPath options = Some false) then []
          else match path t with Some p => p | None => [] end)
    with (chosen_target_path options t).
  destruct (urlJoin _) as [out_path|] eqn:Hjoin; [|discriminate].
  intros H. exists t. split; [reflexivity|].
  destruct (changeOrigin options).
  - destruct (origin_host _ _ _ _) as [v|] eqn:Hv; [|discriminate].
    injection H as <-.
    repeat (split; [first [reflexivity | exact Hjoin]|]).
    exists v. split; reflexivity.
  - injection H as <-.
    repeat (split; [first [reflexivity | exact Hjoin]|]). reflexivity.
Qed.

Lemma setupOutgoing_plain (outgoing : RequestOptions) (options : proxyOptions)
    (req : IncomingMessage) (w : which) (t : UrlObject) :
  selected options w = Some t →
  changeOrigin options = false →
  url_parse_returns url_parse_path options req →
  ∃ out, setupOutgoing requiresPort url_parse_path outgoing options req w = Some out.
Proof.
  intros Hsel Hco Hurl. unfold setupOutgoing. rewrite Hsel, Hco.
  assert (∃ op, (if negb (toProxy options)
                 then default [] <$> url_parse_path (req_url req)
                 else Some (req_url req)) = Some op) as [op ->].
  { destruct Hurl as [-> | [p ->]]; [eexists; reflexivity|].
    destruct (negb (toProxy options)); eexists; reflexivity. }
  match goal with
  | |- context [urlJoin [?a; ?b]] => destruct (urlJoin_two a b) as [r ->]
  end.
  eexists. reflexivity.
Qed.

(** X10. [setupOutgoing] raises in these cases only: the chosen URL is
    missing; or [toProxy] is off and [url.parse] raises on the request
    URL; or [changeOrigin] is set and the URL has no protocol, or it
    has no host although the port has to be written out. *)
Theorem setupOutgoing_raises_iff
    (outgoing : RequestOptions) (options : proxyOptions)
    (req : IncomingMessage) (w : which) :
  setupOutgoing requiresPort url_parse_path outgoing options req w = None
  ↔ selected options w = None
    ∨ (toProxy options = false ∧ url_parse_path (req_url req) = None)
    ∨ ∃ t, selected options w = Some t
           ∧ changeOrigin options = true
           ∧ (protocol t = None
              ∨ ∃ proto, protocol t = Some proto
                         ∧ requiresPort (outgoing_port t) proto = true
                         ∧ host t = None).
Proof.
  destruct (selected options w) as [t|] eqn:Hsel.
  2:{ unfold setupOutgoing. rewrite Hsel. tauto. }
  destruct (toProxy options) eqn:Hto;
    [|destruct (url_parse_path (req_url req)) as [p|] eqn:Hurl].
  3:{ rewrite (setupOutgoing_url_raise _ _ _ _ _ _ Hto Hurl). tauto. }
  all: unfold setupOutgoing; rewrite Hsel, Hto, ?Hurl;
    cbn [negb fmap option_fmap option_map];
    match goal with
    | |- context [urlJoin [?a; ?b]] => destruct (urlJoin_two a b) as [r ->]
    end;
    unfold origin_host; destruct (changeOrigin options); split.
  (* left to right: only the Host header can still raise *)
  1,5: intros H; right; right; exists t;
    split; [reflexivity|]; split; [reflexivity|];
    destruct (protocol t) as [proto|]; [|left; reflexivity];
    right; exists proto; split; [reflexivity|];
    destruct (requiresPort (outgoing_port t) proto); [|discriminate];
    split; [reflexivity|];
    destruct (host t) as [h|]; [|reflexivity];
    destruct (negb (hasPort h)); discriminate.
  2,5: discriminate.
  (* right to left *)
  all: intros [H | [[H1 H2] | (t' & H & Hc & Hhost)]]; try discriminate;
    injection H as <-;
    destruct Hhost as [Hp | (proto & Hp & Hr & Hh)];
    rewrite Hp; try rewrite Hr, Hh; reflexivity.
Qed.

Lemma force_close_other (headers : gmap str hval) (k : str) :
  k ≠ lit "connection" → force_close headers !! k = headers !! k.
Proof.
  intros Hk. unfold force_close.
  destruct (headers !! lit "connection") as [[c| |]|];
    try (rewrite lookup_insert_ne by congruence; reflexivity).
  destruct (upgradeHeader_test c); [reflexivity|].
  rewrite lookup_insert_ne by congruence. reflexivity.
Qed.

Lemma settled_headers_other (options : proxyOptions) (req : IncomingMessage)
    (t : UrlObject) (k : str) :
  k ≠ lit "connection" →
  settled_headers options req t !! k = merged_headers options req !! k.
Proof.
  intros Hk. unfold settled_headers.
  destruct (if bool_decide _ then _ else _); [reflexivity|].
  apply force_close_other. exact Hk.
Qed.

Lemma merged_headers_lookup (options : proxyOptions) (req : IncomingMessage) (k : str) :
  merged_headers options req !! k
  = match opt_headers options ≫= (.!! k) with
    | Some v => Some v
    | None => HStr <$> req_headers req !! k
    end.
Proof.
  unfold merged_headers. destruct (opt_headers options) as [h|]; simpl.
  - rewrite lookup_union, lookup_fmap.
    destruct (h !! k), (req_headers req !! k); reflexivity.
  - rewrite lookup_fmap. reflexivity.
Qed.

(** X11. Every header other than [connection] and [host] reaches the
    outbound request as [options.headers] gives it, or else as the
    inbound request has it; nothing is dropped and nothing else is
    added. *)
Theorem setupOutgoing_passes_headers
    (outgoing : RequestOptions) (options : proxyOptions)
    (req : IncomingMessage) (w : which) (out : RequestOptions) (k : str) :
  setupOutgoing requiresPort url_parse_path outgoing options req w = Some out →
  k ≠ lit "connection" → k ≠ lit "host" →
  o_headers out !! k
  = match opt_headers options ≫= (.!! k) with
    | Some v => Some v
    | None => HStr <$> req_headers req !! k
    end.
Proof.
  intros Hout Hc Hh.
  destruct (setupOutgoing_fields _ _ _ _ _ Hout) as (t & _ & _ & _ & _ & _ & _ & Hhd).
  rewrite <- merged_headers_lookup, <- (settled_headers_other options req t k Hc).
  destruct (changeOrigin options).
  - destruct Hhd as (v & _ & ->). rewrite lookup_insert_ne by congruence. reflexivity.
  - rewrite Hhd. reflexivity.
Qed.

(** X12. Without a connection pool for the protocol, the outbound
    [connection] header is "close" unless the merged headers carry a
    [connection] string that names the token "upgrade", which is kept;
    with a pool the header is left as the merged headers have it. *)
Theorem setupOutgoing_connection
    (outgoing : RequestOptions) (options : proxyOptions)
    (req : IncomingMessage) (w : which) (out : RequestOptions) :
  setupOutgoing requiresPort url_parse_path outgoing options req w = Some out →
  match o_agent out with
  | Some _ =>
      o_headers out !! lit "connection"
      = merged_headers options req !! lit "connection"
  | None =>
      (∃ c, merged_headers options req !! lit "connection" = Some (HStr c)
            ∧ upgradeHeader_test c = true
            ∧ o_headers out !! lit "connection" = Some (HStr c))
      ∨ ((∀ c, merged_headers options req !! lit "connection" = Some (HStr c) →
               upgradeHeader_test c = false)
         ∧ o_headers out !! lit "connection" = Some (HStr (lit "close")))
  end.
Proof.
  intros Hout.
  destruct (setupOutgoing_fields _ _ _ _ _ Hout) as (t & _ & _ & _ & -> & _ & _ & Hhd).
  assert (Hconn : o_headers out !! lit "connection"
                  = settled_headers options req t !! lit "connection").
  { destruct (changeOrigin options).
    - destruct Hhd as (v & _ & ->). rewrite lookup_insert_ne by discriminate. reflexivity.
    - rewrite Hhd. reflexivity. }
  rewrite Hconn. unfold settled_headers.
  destruct (if bool_decide _ then _ else _); [reflexivity|].
  unfold force_close.
  destruct (merged_headers options req !! lit "connection") as [[c| |]|] eqn:Hm.
  - destruct (upgradeHeader_test c) eqn:Hu.
    + left. exists c. auto.
    + right. split; [|apply lookup_insert_eq]. intros c' [= <-]. exact Hu.
  - right. split; [discriminate | apply lookup_insert_eq].
  - right. split; [discriminate | apply lookup_insert_eq].
  - right. split; [discriminate | apply lookup_insert_eq].
Qed.

Lemma from_query_suffix (joined q : str) : q `suffix_of` joined ++ q.
Proof. exists joined. reflexivity. Qed.

(** X13. The outbound path: the query of the request path (from its
    first "?" on) always ends the outbound path untouched; under
    [ignorePath] the path is the target path alone, slashes normalized,
    whatever the request asked for; and with [prependPath] off as well
    it is empty. *)
Theorem setupOutgoing_path
    (outgoing : RequestOptions) (options : proxyOptions)
    (req : IncomingMessage) (w : which) (out : RequestOptions) :
  setupOutgoing requiresPort url_parse_path outgoing options req w = Some out →
  from_query (chosen_request_path url_parse_path options req) `suffix_of` o_path out
  ∧ (ignorePath options = true →
     ∃ t, selected options w = Some t
          ∧ o_path out = fix_slashes (chosen_target_path options t))
  ∧ (ignorePath options = true → prependPath options = Some false →
     o_path out = [])
  ∧ (prependPath options = Some false →
     o_path out
     = fix_slashes (before_query (chosen_request_path url_parse_path options req))
       ++ from_query (chosen_request_path url_parse_path options req)).
Proof.
  intros Hout.
  destruct (setupOutgoing_fields _ _ _ _ _ Hout) as (t & Hsel & _ & _ & _ & _ & Hjoin & _).
  pose proof (urlJoin_snoc [chosen_target_path options t]
                (chosen_request_path url_parse_path options req)) as Hs.
  cbn [app] in Hs. rewrite Hjoin in Hs. injection Hs as Hs.
  assert (Hignore : ignorePath options = true →
                    o_path out = fix_slashes (chosen_target_path options t)).
  { intros Hi. rewrite Hs. unfold chosen_request_path. rewrite Hi.
    cbn [before_query from_query]. rewrite join_right_empty, app_nil_r. reflexivity. }
  split; [rewrite Hs; apply from_query_suffix|].
  split; [intros Hi; exists t; auto|].
  split.
  - intros Hi Hp. rewrite (Hignore Hi). unfold chosen_target_path.
    rewrite bool_decide_true by exact Hp. reflexivity.
  - intros Hp. rewrite Hs. unfold chosen_target_path.
    rewrite bool_decide_true by exact Hp. rewrite join_left_empty. reflexivity.
Qed.

(** X14. For a TLS target ([isSSL] matches the protocol) the outbound
    request verifies the upstream certificate unless [options.secure]
    is given as false; the pool is [httpAgent] for the protocol "http:"
    and [httpsAgent] for every other protocol, "ws:" included. *)
Theorem setupOutgoing_tls_and_agent
    (outgoing : RequestOptions) (options : proxyOptions)
    (req : IncomingMessage) (w : which) (out : RequestOptions) :
  setupOutgoing requiresPort url_parse_path outgoing options req w = Some out →
  ∃ t, selected options w = Some t
    ∧ (isSSL_test (protocol t) = true →
       (o_rejectUnauthorized out = Some false ↔ secure options = Some false)
       ∧ (o_rejectUnauthorized out = Some true ↔ secure options ≠ Some false))
    ∧ (isSSL_test (protocol t) = false →
       o_rejectUnauthorized out = o_rejectUnauthorized outgoing)
    ∧ (protocol t = Some (lit "http:") → o_agent out = httpAgent options)
    ∧ (protocol t ≠ Some (lit "http:") → o_agent out = httpsAgent options).
Proof.
  intros Hout.
  destruct (setupOutgoing_fields _ _ _ _ _ Hout) as (t & Hsel & _ & _ & Ha & Hr & _).
  exists t. split; [exact Hsel|]. rewrite Ha, Hr.
  split; [|split; [|split]].
  - intros ->. destruct (secure options) as [[|]|]; split; split;
      intros H; try reflexivity; try discriminate; try congruence.
  - intros ->. reflexivity.
  - intros Hp. rewrite bool_decide_true by exact Hp. reflexivity.
  - intros Hp. rewrite bool_decide_false by exact Hp. reflexivity.
Qed.

End OutgoingFacts.

Lemma setupOutgoing_passes_headers_witness :
  ∃ out,
    Common.setupOutgoing well_known_port_test (λ u, Some (Some u))
      blank_request_options ignore_path_options upgrade_request Common.Target
    = Some out
    ∧ Common.o_headers out !! lit "x-api-key" = Some (Common.HStr (lit "k1"))
    ∧ Common.o_headers out !! lit "upgrade" = Some (Common.HStr (lit "WebSocket")).
Proof.
  eexists. split; [reflexivity|]. split.
  - apply (setupOutgoing_passes_headers well_known_port_test (λ u, Some (Some u))
             blank_request_options ignore_path_options upgrade_request
             Common.Target _ (lit "x-api-key") eq_refl); discriminate.
  - apply (setupOutgoing_passes_headers well_known_port_test (λ u, Some (Some u))
             blank_request_options ignore_path_options upgrade_request
             Common.Target _ (lit "upgrade") eq_refl); discriminate.
Defined.

Lemma setupOutgoing_connection_witness :
  ∃ out,
    Common.setupOutgoing well_known_port_test (λ u, Some (Some u))
      blank_request_options ignore_path_options upgrade_request Common.Target
    = Some out
    ∧ Common.o_agent out = None
    ∧ Common.o_headers out !! lit "connection"
      = Some (Common.HStr (lit "keep-alive, Upgrade")).
Proof.
  eexists. split; [reflexivity|]. split; [reflexivity|].
  pose proof (setupOutgoing_connection well_known_port_test (λ u, Some (Some u))
                blank_request_options ignore_path_options upgrade_request
                Common.Target _ eq_refl) as H.
  cbv beta iota in H. destruct H as [(c & Hc & _ & H) | [Hno _]].
  - vm_compute in Hc. injection Hc as <-. exact H.
  - specialize (Hno (lit "keep-alive, Upgrade") eq_refl). discriminate Hno.
Defined.

Lemma setupOutgoing_path_witness :
  ∃ out,
    Common.setupOutgoing well_known_port_test (λ u, Some (Some u))
      blank_request_options ignore_path_options upgrade_request Common.Target
    = Some out
    ∧ Common.o_path out = lit "/api".
Proof.
  eexists. split; [reflexivity|].
  destruct (setupOutgoing_path well_known_port_test (λ u, Some (Some u))
              blank_request_options ignore_path_options upgrade_request
              Common.Target _ eq_refl) as (_ & Hignore & _).
  destruct (Hignore eq_refl) as (t & Ht & ->).
  injection Ht as <-. reflexivity.
Defined.

Lemma setupOutgoing_tls_and_agent_witness :
  ∃ out,
    Common.setupOutgoing well_known_port_test (λ u, Some (Some u))
      blank_request_options wss_options upgrade_request Common.Target
    = Some out
    ∧ Common.o_rejectUnauthorized out = Some true
    ∧ Common.o_agent out = None.
Proof.
  eexists. split; [reflexivity|].
  destruct (setupOutgoing_tls_and_agent well_known_port_test (λ u, Some (Some u))
              blank_request_options wss_options upgrade_request Common.Target
              _ eq_refl)
    as (t & Ht & Htls & _ & _ & Hagent).
  injection Ht as <-. split.
  - apply (Htls eq_refl). discriminate.
  - rewrite Hagent by discriminate. reflexivity.
Defined.
(** ** The WebSocket pipeline end to end *)

Section WsPipelineFacts.

Import Common Server WsIncoming Pipeline WsPasses.

Variable spread : proxyOptions → option proxyOptions → proxyOptions.
Variable requiresPort : port_value → str → bool.
Variable url_parse_path : str → option (option str).
Variable requestOptions_of : proxyOptions → RequestOptions.
Variable end_is_truthy : bool.
Variable inserted : Pass → proxyOptions → state → pass_result * state.

Local Abbreviation ws :=
  (WsPasses.ws requiresPort url_parse_path requestOptions_of end_is_truthy
     inserted spread).

(** X15. A request that is not a WebSocket upgrade (wrong method, or no
    [Upgrade: websocket]) never gets past the first pass of the
    WebSocket pipeline: the client socket is destroyed, the request is
    left as it came, and nothing is sent upstream. *)
Theorem ws_pipeline_rejects_plain_request
    (self : ProxyServer) (args : call_args) (p : Pass) (rest : list Pass) :
  let ro := spread (options self) (a_options args) in
  target ro ≠ None ∨ forward ro ≠ None →
  wsPasses self = p :: rest →
  body p = 0 →
  isWebsocket (a_req args) = false →
  ws self args
  = Walked state [p] Halted {| req := a_req args; log := [Destroy Client] |}.
Proof.
  intros ro Hcfg Hpasses Hbody Hws.
  unfold WsPasses.ws, processRequest. fold ro. rewrite Hpasses.
  rewrite bool_decide_true by reflexivity.
  assert (Hrun : run_passes state
                   (invoke requiresPort url_parse_path requestOptions_of
                      end_is_truthy inserted)
                   self (p :: rest) args ro {| req := a_req args; log := [] |}
                 = ([p], Halted, {| req := a_req args; log := [Destroy Client] |})).
  { cbn [run_passes]. unfold invoke. rewrite Hbody.
    unfold checkMethodAndHeader. cbn [req]. rewrite Hws. reflexivity. }
  rewrite Hrun.
  destruct (target ro), (forward ro); try reflexivity.
  destruct Hcfg; contradiction.
Qed.

(** X16. For a WebSocket upgrade request on the pass list of a fresh
    server, with a target, [xfwd] set, [changeOrigin] off and no
    [options.headers], and with [url.parse] returning on the request
    URL (or [toProxy] set, so that it is not called), all three passes
    run, one upstream request is made (over TLS exactly when [isSSL]
    matches the target protocol), and that request carries the three
    forwarded headers as the [xHeaders] pass left them. *)
Theorem ws_pipeline_forwards_headers
    (self : ProxyServer) (args : call_args) (t : UrlObject) :
  let ro := spread (options self) (a_options args) in
  wsPasses self = ws_passes →
  isWebsocket (a_req args) = true →
  target ro = Some t →
  xfwd ro = true →
  changeOrigin ro = false →
  opt_headers ro = None →
  SpecMore.url_parse_returns url_parse_path ro (a_req args) →
  ∃ out,
    ws self args
    = Walked state ws_passes (if end_is_truthy then Halted else Completed)
        {| req := xHeaders (a_req args) ro;
           log := (OnSocket <$> setupSocket Client)
                  ++ match a_head args with
                     | Some h => if Js.truthy h then [OnSocket (Unshift Client h)] else []
                     | None => []
                     end
                  ++ [ Request (isSSL_test (protocol t)) out;
                       ServerEmit (lit "proxyReqWs");
                       OnUpstream (lit "error");
                       OnUpstream (lit "response");
                       OnUpstream (lit "upgrade");
                       EndRequest ] |}
    ∧ o_headers out !! lit "x-forwarded-for"
      = Some (HStr (appended (req_headers (a_req args) !! lit "x-forwarded-for")
                      (address_to_string (remoteAddress (a_req args)))))
    ∧ o_headers out !! lit "x-forwarded-port"
      = Some (HStr (appended (req_headers (a_req args) !! lit "x-forwarded-port")
                      (getPort (a_req args))))
    ∧ o_headers out !! lit "x-forwarded-proto"
      = Some (HStr (appended (req_headers (a_req args) !! lit "x-forwarded-proto")
                      (if hasEncryptedConnection (a_req args)
                       then lit "wss" else lit "ws"))).
Proof.
  intros ro Hpasses Hws Ht Hx Hco Hh Hurl.
  assert (Hurl' : SpecMore.url_parse_returns url_parse_path ro
                    (xHeaders (a_req args) ro))
    by (unfold SpecMore.url_parse_returns, xHeaders; rewrite Hx; exact Hurl).
  destruct (setupOutgoing_plain requiresPort url_parse_path
              (requestOptions_of ro) ro (xHeaders (a_req args) ro) Target t
              Ht Hco Hurl')
    as [out Hout].
  exists out. split.
  - unfold WsPasses.ws, processRequest. fold ro. rewrite Hpasses, Ht.
    rewrite bool_decide_true by reflexivity.
    cbn [run_passes ws_passes]. unfold invoke at 1. cbn [body].
    unfold checkMethodAndHeader. cbn [req]. rewrite Hws. cbn [negb].
    unfold invoke at 1. cbn [body]. unfold xHeaders_pass. cbn [req log].
    unfold invoke at 1. cbn [body]. unfold stream. cbn [req log record].
    rewrite Ht.
    assert (Hreq : ∀ st0 : state, req st0 = xHeaders (a_req args) ro →
              setupOutgoing requiresPort url_parse_path (requestOptions_of ro) ro
                (req st0) Target = Some out)
      by (intros st0 ->; exact Hout).
    destruct (a_head args) as [h|]; [destruct (Js.truthy h)|];
      cbn [req log record]; rewrite Hout;
      destruct end_is_truthy; cbn [app fmap list_fmap];
      rewrite ?app_nil_r, <- ?app_assoc; reflexivity.
  - assert (Hk : ∀ k, k ≠ lit "connection" → k ≠ lit "host" →
                 o_headers out !! k = HStr <$> req_headers (xHeaders (a_req args) ro) !! k).
    { intros k Hc Hhost.
      destruct (setupOutgoing_fields _ _ _ _ _ _ _ Hout) as (t' & _ & _ & _ & _ & _ & _ & Hhd).
      rewrite Hco in Hhd. rewrite Hhd, (settled_headers_other _ _ _ _ Hc).
      rewrite merged_headers_lookup, Hh. reflexivity. }
    rewrite !Hk by discriminate.
    rewrite (xHeaders_headers (a_req args) ro Hx).
    split; [|split].
    + rewrite !lookup_insert_ne by discriminate. rewrite lookup_insert_eq. reflexivity.
    + rewrite lookup_insert_ne by discriminate. rewrite lookup_insert_eq. reflexivity.
    + rewrite lookup_insert_eq. reflexivity.
Qed.

(** X17. With only a forward URL and no target, the [stream] pass of
    the WebSocket pipeline raises while picking the transport, after it
    has set up the client socket: no request is made, neither upstream
    nor to the forward URL. *)
Theorem ws_pipeline_needs_target
    (self : ProxyServer) (args : call_args) (f : UrlObject) :
  let ro := spread (options self) (a_options args) in
  wsPasses self = ws_passes →
  isWebsocket (a_req args) = true →
  target ro = None →
  forward ro = Some f →
  ∃ st,
    ws self args = Walked state ws_passes (Raised (lit "TypeError")) st
    ∧ (∀ secure o, Request secure o ∉ log st)
    ∧ OnSocket (SetKeepAlive Client true 0) ∈ log st.
Proof.
  intros ro Hpasses Hws Ht Hf.
  unfold WsPasses.ws, processRequest. fold ro. rewrite Hpasses, Ht, Hf.
  rewrite bool_decide_true by reflexivity.
  cbn [run_passes ws_passes]. unfold invoke at 1. cbn [body].
  unfold checkMethodAndHeader. cbn [req]. rewrite Hws. cbn [negb].
  unfold invoke at 1. cbn [body]. unfold xHeaders_pass. cbn [req log].
  unfold invoke at 1. cbn [body]. unfold stream. rewrite Ht.
  eexists. split; [reflexivity|]. cbn [log record req].
  split.
  - intros secure o Hin.
    destruct (a_head args) as [h|]; [destruct (Js.truthy h)|]; cbn in Hin;
      repeat (apply elem_of_cons in Hin as [Hin | Hin]; [discriminate Hin|]);
      apply elem_of_nil in Hin; exact Hin.
  - destruct (a_head args) as [h|]; [destruct (Js.truthy h)|]; cbn;
      apply elem_of_cons; right; apply elem_of_cons; left; reflexivity.
Qed.

End WsPipelineFacts.

Lemma ws_pipeline_rejects_plain_request_witness :
  WsPasses.ws well_known_port_test (λ u, Some (Some u)) (λ _, blank_request_options)
    true (λ _ _ st, (Pipeline.Continue, st)) server_options_only
    (Server.new xfwd_options) post_upgrade_args
  = Pipeline.Walked WsPasses.state
      [ {| Server.name := lit "checkMethodAndHeader"; Server.body := 0 |} ]
      Pipeline.Halted
      {| WsPasses.req := post_upgrade_request;
         WsPasses.log := [WsPasses.Destroy WsIncoming.Client] |}.
Proof.
  apply (ws_pipeline_rejects_plain_request server_options_only
           well_known_port_test (λ u, Some (Some u)) (λ _, blank_request_options) true
           (λ _ _ st, (Pipeline.Continue, st))
           (Server.new xfwd_options) post_upgrade_args
           {| Server.name := lit "checkMethodAndHeader"; Server.body := 0 |}
           [ {| Server.name := lit "xHeaders"; Server.body := 1 |};
             {| Server.name := lit "stream"; Server.body := 2 |} ]).
  - left. discriminate.
  - reflexivity.
  - reflexivity.
  - reflexivity.
Defined.

Lemma ws_pipeline_forwards_headers_witness :
  ∃ out,
    Common.o_headers out !! lit "x-forwarded-for"
    = Some (Common.HStr (lit "10.0.0.9"))
    ∧ Common.o_headers out !! lit "x-forwarded-port"
      = Some (Common.HStr (lit "8443"))
    ∧ Common.o_headers out !! lit "x-forwarded-proto"
      = Some (Common.HStr (lit "wss"))
    ∧ Common.o_headers out !! lit "connection"
      = Some (Common.HStr (lit "keep-alive, Upgrade")).
Proof.
  destruct (ws_pipeline_forwards_headers server_options_only
              well_known_port_test (λ u, Some (Some u)) (λ _, blank_request_options) true
              (λ _ _ st, (Pipeline.Continue, st))
              (Server.new xfwd_options) upgrade_args upstream_8080
              eq_refl eq_refl eq_refl eq_refl eq_refl eq_refl
              (or_intror (ex_intro _ _ eq_refl)))
    as (out & Hrun & Hfor & Hport & Hproto).
  exists out. split; [exact Hfor|]. split; [exact Hport|]. split; [exact Hproto|].
  vm_compute in Hrun. injection Hrun as <-. vm_compute. reflexivity.
Defined.

Lemma ws_pipeline_needs_target_witness :
  ∃ st,
    WsPasses.ws well_known_port_test (λ u, Some (Some u)) (λ _, blank_request_options)
      true (λ _ _ st, (Pipeline.Continue, st)) server_options_only
      (Server.new forward_only_options) upgrade_args
    = Pipeline.Walked WsPasses.state Server.ws_passes
        (Pipeline.Raised (lit "TypeError")) st
    ∧ (∀ secure o, WsPasses.Request secure o ∉ WsPasses.log st)
    ∧ WsPasses.OnSocket (WsIncoming.SetKeepAlive WsIncoming.Client true 0)
      ∈ WsPasses.log st.
Proof.
  apply (ws_pipeline_needs_target server_options_only
           well_known_port_test (λ u, Some (Some u)) (λ _, blank_request_options) true
           (λ _ _ st, (Pipeline.Continue, st))
           (Server.new forward_only_options) upgrade_args upstream_8080);
    reflexivity.
Defined.
(** ** The pattern behind the [connection] header *)

Section UpgradeToken.

Import Common SpecMore.

Lemma skip_spaces_split (s : str) :
  ∃ ws, s = ws ++ skip_spaces s ∧ Forall (λ c, Js.is_space c = true) ws.
Proof.
  induction s as [|c s (ws & Hs & Hws)]; simpl.
  - exists []. split; [reflexivity | constructor].
  - destruct (Js.is_space c) eqn:E.
    + exists (c :: ws). split; [simpl; f_equal; exact Hs | constructor; assumption].
    + exists []. split; [reflexivity | constructor].
Qed.

Lemma skip_spaces_app (ws s : str) :
  Forall (λ c, Js.is_space c = true) ws →
  skip_spaces (ws ++ s) = skip_spaces s.
Proof. induction 1 as [|c ws Hc _ IH]; simpl; [reflexivity|]. rewrite Hc. exact IH. Qed.

Lemma skip_spaces_stop (s : str) :
  (∀ c r, s = c :: r → Js.is_space c = false) → skip_spaces s = s.
Proof.
  intros H. destruct s as [|c r]; [reflexivity|]. simpl.
  rewrite (H c r eq_refl). reflexivity.
Qed.

Lemma eq_ci_u_not_space (x : ascii) :
  Js.eq_ci "u" x = true → Js.is_space x = false.
Proof.
  destruct x as [[] [] [] [] [] [] [] []]; vm_compute; congruence.
Qed.

Lemma upgrade_word_head (u rest : str) :
  same_ci (lit "upgrade") u →
  ∀ c r, u ++ rest = c :: r → Js.is_space c = false.
Proof.
  intros Hci c r H. inversion Hci as [|a b p' u' Hab Hrest Hp Hu]; subst.
  injection H as <- _. apply eq_ci_u_not_space. exact Hab.
Qed.

Lemma upgrade_token_here_sound (s : str) :
  upgrade_token_here s = true →
  ∃ ws1 u ws2 b,
    s = ws1 ++ u ++ ws2 ++ b
    ∧ Forall (λ c, Js.is_space c = true) ws1
    ∧ same_ci (lit "upgrade") u
    ∧ Forall (λ c, Js.is_space c = true) ws2
    ∧ (b = [] ∨ ∃ b', b = "," :: b').
Proof.
  unfold upgrade_token_here.
  destruct (skip_spaces_split s) as (ws1 & Hs & Hws1).
  destruct (Js.strip_prefix_ci (lit "upgrade") (skip_spaces s)) as [rest|] eqn:Hp;
    [|discriminate].
  destruct (strip_prefix_ci_Some _ _ _ Hp) as (u & Hu & Hci & _).
  destruct (skip_spaces_split rest) as (ws2 & Hrest & Hws2).
  intros Hend. exists ws1, u, ws2, (skip_spaces rest).
  split; [rewrite Hs at 1; rewrite Hu; rewrite Hrest at 1; reflexivity|].
  split; [exact Hws1|]. split; [exact Hci|]. split; [exact Hws2|].
  destruct (skip_spaces rest) as [|c b']; [left; reflexivity|].
  apply ascii_eqb_true in Hend as ->. right. eauto.
Qed.

Lemma upgrade_token_here_complete (ws1 u ws2 b : str) :
  Forall (λ c, Js.is_space c = true) ws1 →
  same_ci (lit "upgrade") u →
  Forall (λ c, Js.is_space c = true) ws2 →
  (b = [] ∨ ∃ b', b = "," :: b') →
  upgrade_token_here (ws1 ++ u ++ ws2 ++ b) = true.
Proof.
  intros Hws1 Hci Hws2 Hb. unfold upgrade_token_here.
  rewrite (skip_spaces_app ws1 _ Hws1).
  rewrite (skip_spaces_stop (u ++ ws2 ++ b)) by (apply upgrade_word_head; exact Hci).
  rewrite (strip_prefix_ci_complete _ _ _ Hci).
  rewrite (skip_spaces_app ws2 _ Hws2).
  destruct Hb as [-> | (b' & ->)]; reflexivity.
Qed.

Lemma upgrade_after_comma_true (s : str) :
  upgrade_after_comma s = true
  ↔ ∃ a' t, s = a' ++ "," :: t ∧ upgrade_token_here t = true.
Proof.
  induction s as [|c s IH]; simpl.
  - split; [discriminate | intros (a' & t & H & _); destruct a'; discriminate].
  - rewrite orb_true_iff, andb_true_iff, IH, ascii_eqb_true. split.
    + intros [[-> Ht] | (a' & t & -> & Ht)].
      * exists [], s. auto.
      * exists (c :: a'), t. auto.
    + intros (a' & t & H & Ht). destruct a' as [|x a'].
      * injection H as -> ->. left. auto.
      * injection H as -> ->. right. eauto.
Qed.

(** X18. The pattern that decides whether a [connection] header is
    kept, [/(^|,)\s*upgrade\s*($|,)/i], matches exactly the strings
    that hold "upgrade" (in any letter case) as one item of a
    comma-separated list, with nothing but white space around it. *)
Theorem upgradeHeader_test_iff (s : str) :
  upgradeHeader_test s = true ↔ upgrade_token s.
Proof.
  unfold upgradeHeader_test, upgrade_token.
  rewrite orb_true_iff, upgrade_after_comma_true. split.
  - intros [H | (a' & t & -> & H)];
      apply upgrade_token_here_sound in H as (ws1 & u & ws2 & b & -> & H1 & H2 & H3 & H4).
    + exists [], ws1, u, ws2, b. auto 10.
    + exists (a' ++ [","]), ws1, u, ws2, b. rewrite <- app_assoc.
      split; [reflexivity|]. split; [right; eauto|]. auto.
  - intros (a & ws1 & u & ws2 & b & -> & [-> | (a' & ->)] & H1 & H2 & H3 & H4).
    + left. apply (upgrade_token_here_complete ws1 u ws2 b); assumption.
    + right. exists a', (ws1 ++ u ++ ws2 ++ b). rewrite <- app_assoc.
      split; [reflexivity|]. apply (upgrade_token_here_complete ws1 u ws2 b); assumption.
Qed.

End UpgradeToken.

(** ** More on joining paths *)

Section UrlJoinMore.

Import Common.

Lemma collapse_extra_slash (x y : str) :
  Js.collapse_slashes (x ++ "/" :: "/" :: y) = Js.collapse_slashes (x ++ "/" :: y).
Proof.
  induction x as [|c x IH].
  - reflexivity.
  - cbn [app Js.collapse_slashes]. rewrite IH.
    destruct (Ascii.eqb c "/"); [|reflexivity].
    destruct x as [|d x]; reflexivity.
Qed.

Lemma collapse_replace_slash (m s : str) :
  Js.collapse_slashes (Js.replace_first (m ++ ["/"]) (m ++ ["/"; "/"]) s)
  = Js.collapse_slashes s.
Proof.
  destruct (replace_first_cases (m ++ ["/"]) (m ++ ["/"; "/"]) s)
    as [[_ ->] | (a & b & -> & ->)]; [reflexivity|].
  rewrite <- !app_assoc. rewrite !(app_assoc a m). apply collapse_extra_slash.
Qed.

Lemma collapse_idempotent (s : str) :
  Js.collapse_slashes (Js.collapse_slashes s) = Js.collapse_slashes s.
Proof. apply collapse_tidy, collapse_no_double. Qed.

Lemma fix_slashes_idempotent (s : str) :
  fix_slashes (fix_slashes s) = fix_slashes s.
Proof.
  unfold fix_slashes at 1.
  assert (H : Js.collapse_slashes (fix_slashes s) = Js.collapse_slashes s).
  { unfold fix_slashes.
    rewrite (collapse_replace_slash (lit "https:")).
    rewrite (collapse_replace_slash (lit "http:")).
    apply collapse_idempotent. }
  rewrite H. reflexivity.
Qed.

Lemma no_mark_query (b : str) :
  "?" ∉ b → before_query b = b ∧ from_query b = [].
Proof.
  induction b as [|c b IH]; intros H; [split; reflexivity|].
  apply not_elem_of_cons in H as [Hc Hb]. simpl.
  assert (E : Ascii.eqb c "?" = false) by (apply ascii_eqb_false; congruence).
  rewrite E. destruct (IH Hb) as [-> ->]. split; reflexivity.
Qed.

(** X19. Joining is idempotent on paths: when the last argument holds
    no "?", joining the result once more with the empty string gives
    the same result, so a path that went through [urlJoin] is a fixed
    point of its slash handling. *)
Theorem urlJoin_idempotent (init : list str) (last r : str) :
  "?" ∉ last →
  urlJoin (init ++ [last]) = Some r →
  urlJoin [r; []] = Some r.
Proof.
  intros Hq Hr. rewrite urlJoin_snoc in Hr.
  destruct (no_mark_query last Hq) as [Hb Hf]. rewrite Hb, Hf, app_nil_r in Hr.
  injection Hr as <-.
  pose proof (urlJoin_snoc [fix_slashes (Js.join ["/"]
                (filter (λ a, Is_true (Js.truthy a)) (init ++ [last])))] []) as H.
  cbn [app before_query from_query] in H.
  rewrite join_right_empty, app_nil_r, fix_slashes_idempotent in H. exact H.
Qed.

Lemma urlJoin_idempotent_witness :
  urlJoin [lit "http://upstream:8080/api/v1/users"; []]
  = Some (lit "http://upstream:8080/api/v1/users").
Proof.
  apply (urlJoin_idempotent [lit "http://upstream:8080//api/"] (lit "/v1//users")).
  - apply (bool_decide_eq_false_1 ("?" ∈ lit "/v1//users")). reflexivity.
  - reflexivity.
Defined.

End UrlJoinMore.

(** ** More on cookie rewriting *)

Section CookiePair.

Import Common SpecMore.

Lemma cookie_pair_semicolon (pre x : str) :
  cookie_pair (pre ++ ";" :: x) = cookie_pair pre.
Proof.
  unfold cookie_pair. induction pre as [|c pre IH]; simpl; [reflexivity|].
  destruct (Ascii.eqb c ";"); [reflexivity|].
  destruct (span_value (pre ++ ";" :: x)) as [v1 r1].
  destruct (span_value pre) as [v2 r2]. simpl in *. congruence.
Qed.

(** X20. Rewriting a cookie attribute never touches the cookie itself:
    for an attribute name made of letters, digits, "-" and "_" (so that
    the pattern built from it matches it as literal text), the text in
    front of the first semicolon, the name and value of the cookie, is
    the same before and after, whatever the table holds or inherits. *)
Theorem rewriteCookieProperty_keeps_pair
    (header : str) (config : cookie_config) (property : str) :
  plain_name property →
  ∃ header',
    rewriteCookieProperty (Single header) config property = Single header'
    ∧ cookie_pair header' = cookie_pair header.
Proof.
  intros _. eexists. split; [reflexivity|]. unfold rewrite_cookie_string.
  destruct (find_attribute property header) as [[[[pre p] v] rest]|] eqn:Hfind;
    [|reflexivity].
  destruct (find_attribute_sound _ _ _ _ _ _ Hfind)
    as (-> & (ws & name & -> & _) & _ & _ & Hrest).
  cbn [app]. rewrite cookie_pair_semicolon.
  destruct (replacer_shape config (";" :: ws ++ name ++ ["="]) v) as [-> | [r ->]].
  - cbn [app]. destruct rest as [|c rest]; [rewrite app_nil_r; reflexivity|].
    rewrite (Hrest c rest eq_refl). apply cookie_pair_semicolon.
  - cbn [app]. apply cookie_pair_semicolon.
Qed.

End CookiePair.

Lemma rewriteCookieProperty_keeps_pair_witness :
  ∃ header',
    Common.rewriteCookieProperty
      (Common.Single (lit "sid=1; Domain=toString; Path=/"))
      (Common.object_literal {[ lit "*" := None ]}) (lit "domain")
    = Common.Single header'
    ∧ SpecMore.cookie_pair header' = lit "sid=1".
Proof.
  apply (rewriteCookieProperty_keeps_pair
           (lit "sid=1; Domain=toString; Path=/")
           (Common.object_literal {[ lit "*" := None ]}) (lit "domain")).
  unfold plain_name. repeat constructor.
Defined.
(** ** Errors of the upstream and the factory *)

Section UpstreamErrors.

Import Common Server WsPasses Factory.

(** X21. When the upstream request or socket fails: a per-call
    [errorHandler] that returns is the only thing called and the client
    socket is ended; without one, "error" is emitted on the server, and
    on a server that has only its own listener the error is thrown
    before the client socket is ended, while with outside listeners
    that return the socket is ended. *)
Theorem upstream_error_handling
    (opts : proxyOptions) (err : Error) (fs : list (Error → outcome unit)) :
  Forall (λ f, f err = Returned tt) fs →
  (∀ (self : ProxyServer) (handler : Error → outcome unit),
     handler err = Returned tt →
     onOutgoingError self (Some handler) err
     = ([HandlerCalled; EndSocket WsIncoming.Client], Returned tt))
  ∧ onOutgoingError (attach fs (new opts)) None err
    = if bool_decide (fs = [])
      then ([ServerEmit (lit "error")], Thrown err)
      else ([ServerEmit (lit "error"); EndSocket WsIncoming.Client], Returned tt).
Proof.
  intros Hret. split.
  - intros self handler Hh. unfold onOutgoingError. rewrite Hh. reflexivity.
  - unfold onOutgoingError. case_bool_decide as Hfs.
    + rewrite Hfs. cbn [attach fold_left]. rewrite emit_error_on_new. reflexivity.
    + rewrite (emit_error_listened opts err fs Hfs Hret). reflexivity.
Qed.

Lemma upstream_error_handling_witness :
  onOutgoingError (attach [] (new no_options)) None (lit "ECONNREFUSED")
  = ([ServerEmit (lit "error")], Thrown (lit "ECONNREFUSED")).
Proof.
  apply (upstream_error_handling no_options (lit "ECONNREFUSED") []).
  constructor.
Defined.


End UpstreamErrors.

(** ** Listeners of other events, and inserted passes *)

Section Composition.

Import Common Server WsIncoming Pipeline WsPasses.

Lemma listeners_on_other (self : ProxyServer) (event event' : str) (fn : listener) :
  event ≠ event' → listeners (on self event fn) event' = listeners self event'.
Proof.
  intros Hne. unfold listeners at 1. unfold on. simpl.
  rewrite lookup_insert_ne by exact Hne. reflexivity.
Qed.

(** X23. Only listeners of "error" silence the server's own handler:
    after any number of listeners were attached to other events, on a
    server that had only its own "error" listener, emitting "error"
    still throws the error back. *)
Theorem other_listeners_do_not_silence
    (opts : proxyOptions) (err : Error) (attached : list (str * listener)) :
  Forall (λ '(event, _), event ≠ lit "error") attached →
  emit (fold_left (λ s '(event, fn), on s event fn) attached (new opts))
    (lit "error") err
  = Thrown err.
Proof.
  intros Hall.
  assert (Hls : ∀ self,
            listeners (fold_left (λ s '(event, fn), on s event fn) attached self)
              (lit "error")
            = listeners self (lit "error")).
  { induction Hall as [|[event fn] attached Hev _ IH]; intros self; [reflexivity|].
    cbn [fold_left]. rewrite IH. apply listeners_on_other. exact Hev. }
  unfold emit. rewrite Hls, listeners_new. cbn [call_all call].
  unfold onError. rewrite Hls, listeners_new. reflexivity.
Qed.

Lemma other_listeners_do_not_silence_witness :
  emit (fold_left (λ s '(event, fn), on s event fn)
          [(lit "proxyReqWs", External (λ _, Returned tt));
           (lit "open", External (λ _, Returned tt))]
          (new no_options))
    (lit "error") (lit "socket hang up")
  = Thrown (lit "socket hang up").
Proof.
  apply (other_listeners_do_not_silence no_options (lit "socket hang up")).
  repeat constructor; discriminate.
Defined.

Variable spread : proxyOptions → option proxyOptions → proxyOptions.
Variable requiresPort : port_value → str → bool.
Variable url_parse_path : str → option (option str).
Variable requestOptions_of : proxyOptions → RequestOptions.
Variable end_is_truthy : bool.
Variable inserted : Pass → proxyOptions → state → pass_result * state.

(** X24. A stage put in with [before("ws", "stream", stage)] on a fresh
    server runs after the header check and the [xHeaders] pass and sees
    the request as that pass left it; when it answers something truthy
    or raises, the [stream] pass is never called, so nothing is sent
    upstream beyond what the stage itself did. *)
Theorem inserted_stage_can_veto
    (opts : proxyOptions) (self' : ProxyServer) (stage : Pass)
    (args : call_args) (r : pass_result) (st' : state) :
  let ro := spread (options (new opts)) (a_options args) in
  before (new opts) (lit "ws") (lit "stream") stage = Returned self' →
  2 < body stage →
  isWebsocket (a_req args) = true →
  target ro ≠ None ∨ forward ro ≠ None →
  inserted stage ro {| req := xHeaders (a_req args) ro; log := [] |} = (r, st') →
  r ≠ Continue →
  WsPasses.ws requiresPort url_parse_path requestOptions_of end_is_truthy
    inserted spread self' args
  = Walked state
      [ {| name := lit "checkMethodAndHeader"; body := 0 |};
        {| name := lit "xHeaders"; body := 1 |};
        stage ]
      (match r with Raise e => Raised e | _ => Halted end)
      st'.
Proof.
  intros ro Hbefore Hbody Hws Hcfg Hstage Hr.
  assert (Hself : wsPasses self'
                  = [ {| name := lit "checkMethodAndHeader"; body := 0 |};
                      {| name := lit "xHeaders"; body := 1 |}; stage;
                      {| name := lit "stream"; body := 2 |} ]
                  ∧ options self' = options (new opts))
    by (injection Hbefore as <-; split; reflexivity).
  destruct Hself as [Hpasses Hopts].
  unfold WsPasses.ws, processRequest.
  rewrite bool_decide_true by reflexivity. rewrite Hpasses, Hopts. fold ro.
  assert (Hrun :
    run_passes state
      (invoke requiresPort url_parse_path requestOptions_of end_is_truthy inserted)
      self'
      [ {| name := lit "checkMethodAndHeader"; body := 0 |};
        {| name := lit "xHeaders"; body := 1 |}; stage;
        {| name := lit "stream"; body := 2 |} ]
      args ro {| req := a_req args; log := [] |}
    = ([ {| name := lit "checkMethodAndHeader"; body := 0 |};
         {| name := lit "xHeaders"; body := 1 |}; stage ],
       match r with Raise e => Raised e | _ => Halted end, st')).
  { cbn [run_passes]. unfold invoke at 1. cbn [body].
    unfold checkMethodAndHeader. cbn [req]. rewrite Hws. cbn [negb].
    unfold invoke at 1. cbn [body]. unfold xHeaders_pass. cbn [req log].
    unfold invoke at 1.
    destruct (body stage) as [|[|[|n]]]; [lia | lia | lia |].
    rewrite Hstage. destruct r; [contradiction | reflexivity | reflexivity]. }
  rewrite Hrun.
  destruct (target ro), (forward ro); try reflexivity.
  destruct Hcfg; contradiction.
Qed.

End Composition.

Lemma inserted_stage_can_veto_witness :
  ∃ self',
    Server.before (Server.new xfwd_options) (lit "ws") (lit "stream")
      {| Server.name := lit "auth"; Server.body := 7 |} = Server.Returned self'
    ∧ WsPasses.ws well_known_port_test (λ u, Some (Some u)) (λ _, blank_request_options)
        true (λ _ _ st, (Pipeline.Halt, WsPasses.record st [WsPasses.Destroy WsIncoming.Client]))
        server_options_only self' upgrade_args
      = Pipeline.Walked WsPasses.state
          [ {| Server.name := lit "checkMethodAndHeader"; Server.body := 0 |};
            {| Server.name := lit "xHeaders"; Server.body := 1 |};
            {| Server.name := lit "auth"; Server.body := 7 |} ]
          Pipeline.Halted
          {| WsPasses.req := WsIncoming.xHeaders upgrade_request
                               (Server.options (Server.new xfwd_options));
             WsPasses.log := [WsPasses.Destroy WsIncoming.Client] |}.
Proof.
  eexists. split; [reflexivity|].
  apply (inserted_stage_can_veto server_options_only well_known_port_test
           (λ u, Some (Some u)) (λ _, blank_request_options) true
           (λ _ _ st, (Pipeline.Halt, WsPasses.record st [WsPasses.Destroy WsIncoming.Client]))
           xfwd_options _ {| Server.name := lit "auth"; Server.body := 7 |}
           upgrade_args Pipeline.Halt).
  - reflexivity.
  - simpl. lia.
  - reflexivity.
  - left. discriminate.
  - reflexivity.
  - discriminate.
Defined.
